(** * Google Cloud Storage upload provider: model and properties

    A shallow embedding of [lib/index.js]: the configuration check
    ([checkServiceAccount]), the bucket check ([checkBucket]) and the two
    operations [upload] and [delete] returned by [init].

    Conventions.
    - JavaScript strings are Rocq strings of 8-bit characters; the models of
      the string functions of the platform are exact on ASCII text.
    - The fields of the file descriptor and of the configuration that the
      code tests for presence are JavaScript values ([JS.value]): presence
      is truthiness, as in [file.path ? ... : ...].
    - Synchronous code that may throw returns a [result].
    - Asynchronous code is run by an event loop ([deliver], [run]): every
      call of the storage client is a network round trip whose answer
      arrives in a later turn, and a turn runs the reaction to one answer
      together with the promise jobs it triggers. *)

From Stdlib Require Import String Ascii List ZArith Bool Lia DecimalString.
Import ListNotations.
Local Open Scope string_scope.

(** ** Errors and results of synchronous code *)

(** A JavaScript error object, as far as the code looks at it:
    [error.code] (a number, when there is one) and the message. *)
Record error : Type := mkError { code : option Z; message : string }.

(** [new Error(msg)]. *)
Definition Error (msg : string) : error := mkError None msg.

Inductive result (A : Type) : Type :=
| Return (a : A)
| Throw (e : error).
Arguments Return {A} a.
Arguments Throw {A} e.

(** [try { body } catch (e) { handler(e) }]. *)
Definition try_catch {A} (body : result A) (handler : error -> result A)
  : result A :=
  match body with
  | Return a => Return a
  | Throw e => handler e
  end.

Definition bind_result {A B} (r : result A) (k : A -> result B) : result B :=
  match r with
  | Return a => k a
  | Throw e => Throw e
  end.

(** The double quote character, and a text between double quotes. *)
Definition dquote : string := String (ascii_of_nat 34) EmptyString.
Definition quoted (s : string) : string := dquote ++ s ++ dquote.

(** ** JavaScript values and string primitives *)
Module JS.

Inductive value : Type :=
| Undefined
| Null
| Str (s : string)
| Num (n : Z).

(** ToBoolean. *)
Definition truthy (v : value) : bool :=
  match v with
  | Undefined | Null => false
  | Str s => negb (s =? EmptyString)
  | Num n => negb (n =? 0)%Z
  end.

(** ToString, as applied by a template literal [`${v}`]; numbers are
    integers and print as their decimal numeral, which is how JavaScript
    prints the integers of absolute value below 10^21. *)
Definition to_text (v : value) : string :=
  match v with
  | Undefined => "undefined"
  | Null => "null"
  | Str s => s
  | Num n => NilZero.string_of_int (Z.to_int n)
  end.

Definition is_upper (c : ascii) : bool :=
  (65 <=? nat_of_ascii c)%nat && (nat_of_ascii c <=? 90)%nat.

Definition lower_char (c : ascii) : ascii :=
  if is_upper c then ascii_of_nat (nat_of_ascii c + 32) else c.

(** [String.prototype.toLowerCase] on ASCII text: the letters A to Z are
    the only ones it changes there. *)
Fixpoint toLowerCase (s : string) : string :=
  match s with
  | EmptyString => EmptyString
  | String c r => String (lower_char c) (toLowerCase r)
  end.

(** WhiteSpace and LineTerminator code points below 128: the class [\s]
    of regular expressions and the characters removed by [trim]. *)
Definition is_space (c : ascii) : bool :=
  let n := nat_of_ascii c in
  ((9 <=? n)%nat && (n <=? 13)%nat) || (n =? 32)%nat.

Fixpoint trimStart (s : string) : string :=
  match s with
  | EmptyString => EmptyString
  | String c r => if is_space c then trimStart r else s
  end.

Fixpoint trimEnd (s : string) : string :=
  match s with
  | EmptyString => EmptyString
  | String c r =>
      match trimEnd r with
      | EmptyString => if is_space c then EmptyString else String c EmptyString
      | r' => String c r'
      end
  end.

(** [String.prototype.trim]. *)
Definition trim (s : string) : string := trimEnd (trimStart s).

(** [s.slice(from, to)]. *)
Definition slice (s : string) (from to : Z) : string :=
  let len := Z.of_nat (String.length s) in
  let clamp k := if (k <? 0)%Z then Z.max (len + k) 0 else Z.min k len in
  let a := clamp from in
  let b := clamp to in
  substring (Z.to_nat a) (Z.to_nat (b - a)) s.

(** First occurrence of [pat] in [s]: the text before it and the text
    after it. *)
Fixpoint split_first (pat s : string) : option (string * string) :=
  if prefix pat s then
    Some (EmptyString, substring (String.length pat) (String.length s) s)
  else
    match s with
    | EmptyString => None
    | String c r =>
        match split_first pat r with
        | Some (before, after) => Some (String c before, after)
        | None => None
        end
    end.

(** GetSubstitution for a pattern without capture groups: [$$], [$&],
    [$`] and [$'] are expanded, every other [$] is literal. *)
Fixpoint substitution (matched before after repl : string) : string :=
  match repl with
  | EmptyString => EmptyString
  | String c r =>
      if (c =? "$")%char then
        match r with
        | String d r' =>
            if (d =? "$")%char then
              String "$" (substitution matched before after r')
            else if (d =? "&")%char then
              matched ++ substitution matched before after r'
            else if (d =? "`")%char then
              before ++ substitution matched before after r'
            else if (d =? "'")%char then
              after ++ substitution matched before after r'
            else String c (substitution matched before after r)
        | EmptyString => String c EmptyString
        end
      else String c (substitution matched before after r)
  end.

(** [s.includes(pat)]. *)
Definition includes (pat s : string) : bool :=
  match split_first pat s with
  | Some _ => true
  | None => false
  end.

(** [s.replace(/pat/, repl)] for a regular expression that is the literal
    text [pat], without flags: the first occurrence only. *)
Definition replace (pat repl s : string) : string :=
  match split_first pat s with
  | Some (before, after) =>
      before ++ substitution pat before after repl ++ after
  | None => s
  end.

End JS.

(** ** [path.basename] of Node (POSIX flavour)

    The provider requires Node's [path] module and the [slugify] package,
    whose code is outside the repository. [Path.basename] follows the
    backward scan of [basename(path, suffix)] in Node's [lib/path.js];
    the suffix is compared character by character, case included. *)
Module Path.

Definition is_slash (c : option ascii) : bool :=
  match c with
  | Some c => (c =? "/")%char
  | None => false
  end.

Definition same_code (a b : option ascii) : bool :=
  match a, b with
  | Some x, Some y => (x =? y)%char
  | None, None => true
  | _, _ => false
  end.

(** The backward scan of [basename(path, suffix)] for a suffix that is not
    empty and not longer than the path. [n] is the number of characters
    still to visit; the visited index is [n - 1]. Returns [start], [end]
    and [firstNonSlashEnd]. *)
Fixpoint scan_suffix (path suffix : string) (n : nat)
    (start end_ : Z) (matchedSlash : bool) (extIdx firstNonSlashEnd : Z)
    : Z * Z * Z :=
  match n with
  | O => (start, end_, firstNonSlashEnd)
  | S i =>
      let c := get i path in
      if is_slash c then
        if negb matchedSlash then
          (Z.of_nat i + 1, end_, firstNonSlashEnd)%Z
        else
          scan_suffix path suffix i start end_ matchedSlash extIdx
            firstNonSlashEnd
      else
        let first := (firstNonSlashEnd =? -1)%Z in
        let matchedSlash' := if first then false else matchedSlash in
        let firstNonSlashEnd' :=
          if first then (Z.of_nat i + 1)%Z else firstNonSlashEnd in
        if (0 <=? extIdx)%Z then
          if same_code c (get (Z.to_nat extIdx) suffix) then
            let extIdx' := (extIdx - 1)%Z in
            if (extIdx' =? -1)%Z then
              scan_suffix path suffix i start (Z.of_nat i) matchedSlash'
                extIdx' firstNonSlashEnd'
            else
              scan_suffix path suffix i start end_ matchedSlash' extIdx'
                firstNonSlashEnd'
          else
            scan_suffix path suffix i start firstNonSlashEnd' matchedSlash'
              (-1) firstNonSlashEnd'
        else
          scan_suffix path suffix i start end_ matchedSlash' extIdx
            firstNonSlashEnd'
  end.

(** The backward scan of [basename(path)] when no suffix is removed.
    Returns [start] and [end]. *)
Fixpoint scan_plain (path : string) (n : nat)
    (start end_ : Z) (matchedSlash : bool) : Z * Z :=
  match n with
  | O => (start, end_)
  | S i =>
      if is_slash (get i path) then
        if negb matchedSlash then (Z.of_nat i + 1, end_)%Z
        else scan_plain path i start end_ matchedSlash
      else if (end_ =? -1)%Z then
        scan_plain path i start (Z.of_nat i + 1) false
      else scan_plain path i start end_ matchedSlash
  end.

Definition basename (path suffix : string) : string :=
  let len := String.length path in
  if (0 <? String.length suffix)%nat && (String.length suffix <=? len)%nat
  then
    if suffix =? path then EmptyString
    else
      let '(start, end_, firstNonSlashEnd) :=
        scan_suffix path suffix len 0 (-1) true
          (Z.of_nat (String.length suffix) - 1) (-1) in
      let end' :=
        if (start =? end_)%Z then firstNonSlashEnd
        else if (end_ =? -1)%Z then Z.of_nat len
        else end_ in
      JS.slice path start end'
  else
    let '(start, end_) := scan_plain path len 0 (-1) true in
    if (end_ =? -1)%Z then EmptyString else JS.slice path start end_.

End Path.

(** ** [slugify(string)] with its default options

    The function of the [slugify] package (releases 1.6) as [fileName]
    calls it, without options: the replacement is [-], the text is trimmed
    and the case of the letters is kept. *)
Module Slugify.

(** The entries of the character map whose key is an ASCII character;
    the other entries transliterate characters outside ASCII, which the
    model does not cover. *)
Definition charMap (c : ascii) : option string :=
  if (c =? "$")%char then Some "dollar"
  else if (c =? "%")%char then Some "percent"
  else if (c =? "&")%char then Some "and"
  else if (c =? "<")%char then Some "less"
  else if (c =? ">")%char then Some "greater"
  else if (c =? "|")%char then Some "or"
  else None.

(** [\w]. *)
Definition is_word (c : ascii) : bool :=
  let n := nat_of_ascii c in
  ((48 <=? n)%nat && (n <=? 57)%nat)
  || ((65 <=? n)%nat && (n <=? 90)%nat)
  || ((97 <=? n)%nat && (n <=? 122)%nat)
  || (n =? 95)%nat.

(** The characters kept by the default [remove] expression: word
    characters, white space, and the punctuation listed by code below
    (dollar, star, underscore, plus, tilde, dot, parentheses, both quotes,
    exclamation mark, hyphen, colon, at sign). *)
Definition allowed (c : ascii) : bool :=
  is_word c || JS.is_space c
  || existsb (Nat.eqb (nat_of_ascii c))
       [36; 42; 95; 43; 126; 46; 40; 41; 39; 34; 33; 45; 58; 64]%nat.

Fixpoint keep_allowed (s : string) : string :=
  match s with
  | EmptyString => EmptyString
  | String c r =>
      if allowed c then String c (keep_allowed r) else keep_allowed r
  end.

(** One step of the reduction over the characters: the mapped character,
    the replacement character itself turned into a space, then the
    characters that are not allowed removed. *)
Definition appendChar (c : ascii) : string :=
  let mapped :=
    match charMap c with
    | Some s => s
    | None => String c EmptyString
    end in
  let mapped := if mapped =? "-" then " " else mapped in
  keep_allowed mapped.

Fixpoint mapChars (s : string) : string :=
  match s with
  | EmptyString => EmptyString
  | String c r => appendChar c ++ mapChars r
  end.

(** [slug.replace(/\s+/g, '-')]. *)
Fixpoint dashSpaces (inRun : bool) (s : string) : string :=
  match s with
  | EmptyString => EmptyString
  | String c r =>
      if JS.is_space c then
        if inRun then dashSpaces true r else String "-" (dashSpaces true r)
      else String c (dashSpaces false r)
  end.

Definition slugify (s : string) : string :=
  dashSpaces false (JS.trim (mapChars s)).

End Slugify.

(** ** The data of the provider *)

Record related_entry : Type := mkRelated {
  ref : JS.value;
  refId : JS.value
}.

(** The file descriptor handed over by the host. [related] is [None] when
    the field is missing, and the array otherwise. *)
Record file : Type := mkFile {
  name : string;
  ext : string;
  mime : string;
  buffer : string;
  path : JS.value;
  hash : JS.value;
  related : option (list related_entry);
  url : JS.value
}.

Record config : Type := mkConfig {
  serviceAccount : JS.value;
  bucketName : JS.value;
  bucketLocation : JS.value;
  baseUrl : string
}.

(** ** Object keys *)

(** [file.related && file.related.length > 0 && file.related[0].ref]. *)
Definition related_ref_present (f : file) : bool :=
  match related f with
  | None => false
  | Some rs =>
      (0 <? List.length rs)%nat
      && match rs with
         | r :: _ => JS.truthy (ref r)
         | [] => false
         end
  end.

(** [file.related[0]], read only where [related_ref_present] holds. *)
Definition related0 (f : file) : related_entry :=
  match related f with
  | Some (r :: _) => r
  | _ => mkRelated JS.Undefined JS.Undefined
  end.

(** [backupPath] of [upload]. *)
Definition backupPath (f : file) : string :=
  if related_ref_present f then
    JS.to_text (ref (related0 f)) ++ "/" ++ JS.to_text (refId (related0 f))
  else JS.to_text (hash f).

(** [filePath] of [upload]. *)
Definition upload_filePath (f : file) : string :=
  if JS.truthy (path f) then JS.to_text (path f) ++ "/"
  else backupPath f ++ "/".

(** [filePath] of [delete]. *)
Definition delete_filePath (f : file) : string :=
  if JS.truthy (path f) then JS.to_text (path f) ++ "/"
  else JS.to_text (hash f) ++ "/".

(** [fileName], the same expression in [upload] and in [delete]. *)
Definition fileName (f : file) : string :=
  Slugify.slugify (Path.basename (name f) (ext f)) ++ JS.toLowerCase (ext f).

(** The object keys [`${filePath}${fileName}`]. *)
Definition upload_key (f : file) : string := upload_filePath f ++ fileName f.
Definition delete_key (f : file) : string := delete_filePath f ++ fileName f.

(** The descriptor after [file.url = u]. *)
Definition with_url (f : file) (u : string) : file :=
  mkFile (name f) (ext f) (mime f) (buffer f) (path f) (hash f) (related f)
    (JS.Str u).

(** ** Parsed JSON and the service account check *)

(** A value built by [JSON.parse]. Numbers are kept as integers: the code
    only tests them for truthiness. *)
#[local] Set Warnings "-register-all".
Inductive json : Type :=
| JNull
| JBool (b : bool)
| JNumber (n : Z)
| JString (s : string)
| JArray (items : list json)
| JObject (members : list (string * json)).

(** The three properties read by [checkServiceAccount]. *)
Inductive field : Type := project_id | client_email | private_key.

Definition field_name (fld : field) : string :=
  match fld with
  | project_id => "project_id"
  | client_email => "client_email"
  | private_key => "private_key"
  end.

(** The member of an object for a name; [JSON.parse] keeps the last one
    when a name is repeated. *)
Fixpoint member (k : string) (ms : list (string * json)) : option json :=
  match ms with
  | [] => None
  | (k', v) :: rest =>
      match member k rest with
      | Some v' => Some v'
      | None => if k' =? k then Some v else None
      end
  end.

(** [j.fld]: a TypeError on [null], [undefined] (here [None]) on the other
    values that are not objects and on objects without the member. *)
Definition get_property (j : json) (fld : field) : result (option json) :=
  match j with
  | JNull =>
      Throw (Error ("Cannot read properties of null (reading '"
                    ++ field_name fld ++ "')"))
  | JObject ms => Return (member (field_name fld) ms)
  | _ => Return None
  end.

(** ToBoolean of a property that was read. *)
Definition truthy_json (v : option json) : bool :=
  match v with
  | None | Some JNull => false
  | Some (JBool b) => b
  | Some (JNumber n) => negb (n =? 0)%Z
  | Some (JString s) => negb (s =? EmptyString)
  | Some (JArray _) | Some (JObject _) => true
  end.

Definition required_serviceAccount : string :=
  quoted "Service Account JSON" ++ " is required!".

Definition required_bucketName : string :=
  quoted "Multi-Regional Bucket name" ++ " is required!".

(** The message thrown inside the [try] block for a missing field. *)
Definition missing_field (fld : field) : string :=
  "Error parsing data " ++ quoted "Service Account JSON" ++ ". Missing "
  ++ quoted (field_name fld) ++ " field in JSON file.".

(** The message thrown by the [catch] block. *)
Definition parsing_failed : string :=
  "Error parsing data " ++ quoted "Service Account JSON"
  ++ ", please be sure to copy/paste the full JSON file.".

Declare Scope result_scope.
Delimit Scope result_scope with result.
Notation "x <- c1 ;; c2" := (bind_result c1 (fun x => c2))
  (at level 61, c1 at next level, right associativity) : result_scope.

(** The levels of [strapi.log]. *)
Inductive level : Type := Debug | Info | Warn.

(** The calls of the storage client. *)
Inductive call : Type :=
| BucketExists (bucket : JS.value)
| CreateBucket (bucket : JS.value) (location : JS.value)
    (storageClass : string)
| FileExists (bucket : JS.value) (key : string)
| FileDelete (bucket : JS.value) (key : string)
| FileSave (bucket : JS.value) (key : string) (data : string)
    (contentType : string) (public : bool) (contentDisposition : string).

(** What the code does to the outside, in the order in which it does it:
    the construction of the storage client, the calls made on it, the
    lines logged, and the promise rejections that no reaction handles. *)
Inductive event : Type :=
| NewStorage (projectId clientEmail privateKey : option json)
| Issue (c : call)
| Log (l : level) (msg : string)
| Unhandled (e : error).

(** What [init] returns: the two operations, closed over the configuration
    and the storage client. *)
Record provider : Type := mkProvider {
  provider_config : config;
  provider_account : json
}.

Definition read_property (j : json) (fld : field) : option json :=
  match get_property j fld with
  | Return v => v
  | Throw _ => None
  end.

Section Validation.

(** [JSON.parse]: the parsed value, or the SyntaxError it throws. *)
Variable JSON_parse : string -> result json.

Definition checkServiceAccount (cfg : config) : result json :=
  if negb (JS.truthy (serviceAccount cfg)) then
    Throw (Error required_serviceAccount)
  else if negb (JS.truthy (bucketName cfg)) then
    Throw (Error required_bucketName)
  else
    try_catch
      (sa <- JSON_parse (JS.to_text (serviceAccount cfg)) ;;
       p <- get_property sa project_id ;;
       if negb (truthy_json p) then Throw (Error (missing_field project_id))
       else
         c <- get_property sa client_email ;;
         if negb (truthy_json c) then
           Throw (Error (missing_field client_email))
         else
           k <- get_property sa private_key ;;
           if negb (truthy_json k) then
             Throw (Error (missing_field private_key))
           else Return sa)%result
      (fun _ => Throw (Error parsing_failed)).

(** [init]: the events it causes and what it returns or throws. *)
Definition init (cfg : config) : list event * result provider :=
  match checkServiceAccount cfg with
  | Throw e => ([], Throw e)
  | Return sa =>
      ([NewStorage (read_property sa project_id)
          (read_property sa client_email) (read_property sa private_key)],
       Return (mkProvider cfg sa))
  end.

End Validation.

(** ** The asynchronous code *)

(** The answer of the storage service to a call: the promise of the call is
    fulfilled (for the two existence checks, with the array whose first
    element is [data0]) or rejected. *)
Inductive response : Type :=
| Fulfilled (data0 : bool)
| Rejected (e : error).

Inductive promise_state : Type :=
| Pending
| Resolved
| RejectedWith (e : error).

(** Who called [checkBucket]: a caller that only holds its promise, or
    [upload], which chains two reactions on it. *)
Inductive caller : Type :=
| Direct
| FromUpload (cfg : config) (key : string).

(** The reactions registered on the promise of a call, with the variables
    they capture. *)
Inductive reaction : Type :=
| AfterBucketExists (bucketName bucketLocation : JS.value) (who : caller)
| AfterCreateBucket (bucketName : JS.value)
| AfterFileExists (cfg : config) (key : string)
| AfterPreDelete
| AfterSave (cfg : config) (key : string)
| AfterDelete.

Definition creation_failed (bucketName : JS.value) : string :=
  "An error occurs when we try to create the Bucket " ++ dquote
  ++ JS.to_text bucketName ++ dquote
  ++ ". Please try again on Google Cloud Platform directly.".

Definition not_found_warning : string :=
  "Remote file was not found, you may have to delete manually.".

(** [file.url] as written by [upload]. *)
Definition url_of (cfg : config) (key : string) : string :=
  JS.replace "{bucket-name}" (JS.to_text (bucketName cfg)) (baseUrl cfg)
  ++ "/" ++ key.

Declare Scope action_scope.
Delimit Scope action_scope with action.

Section EventLoop.

(** The storage service behind the client: its state, whether a call
    throws at the call site, and how it answers a call. *)
Variable R : Type.
Variable throws : R -> call -> option error.
Variable respond : R -> call -> response * R.

(** The state of one operation: the service, the calls in flight with
    their reactions, what happened so far, the promise returned to the
    caller, and the file descriptor shared with the host. *)
Record world : Type := mkWorld {
  remote : R;
  pending : list (call * reaction);
  trace : list event;
  promise : promise_state;
  descriptor : file
}.

Definition new_world (r : R) (f : file) : world :=
  mkWorld r [] [] Pending f.

Definition add_event (e : event) (w : world) : world :=
  mkWorld (remote w) (pending w) (trace w ++ [e]) (promise w)
    (descriptor w).

Definition add_pending (c : call) (k : reaction) (w : world) : world :=
  mkWorld (remote w) (pending w ++ [(c, k)]) (trace w) (promise w)
    (descriptor w).

(** [resolve()] and [reject(e)] settle a promise that is pending and do
    nothing to a settled one. *)
Definition settle (s : promise_state) (w : world) : world :=
  match promise w with
  | Pending =>
      mkWorld (remote w) (pending w) (trace w) s (descriptor w)
  | _ => w
  end.

Definition set_url (u : string) (w : world) : world :=
  mkWorld (remote w) (pending w) (trace w) (promise w)
    (with_url (descriptor w) u).

(** Code of one turn: it changes the world and returns or throws. *)
Definition action (A : Type) : Type := world -> result A * world.

Definition ret {A} (a : A) : action A := fun w => (Return a, w).

Definition throw {A} (e : error) : action A := fun w => (Throw e, w).

Definition bind {A B} (m : action A) (k : A -> action B) : action B :=
  fun w =>
    match m w with
    | (Return a, w1) => k a w1
    | (Throw e, w1) => (Throw e, w1)
    end.

Definition catch {A} (m : action A) (handler : error -> action A)
  : action A :=
  fun w =>
    match m w with
    | (Return a, w1) => (Return a, w1)
    | (Throw e, w1) => handler e w1
    end.

Definition lift (step : world -> world) : action unit :=
  fun w => (Return tt, step w).

Notation "x <- c1 ;; c2" := (bind c1 (fun x => c2))
  (at level 61, c1 at next level, right associativity) : action_scope.
Notation "c1 ;; c2" := (bind c1 (fun _ => c2))
  (at level 61, right associativity) : action_scope.

Definition log (l : level) (msg : string) : action unit :=
  lift (add_event (Log l msg)).

Definition resolve : action unit := lift (settle Resolved).

Definition reject (e : error) : action unit :=
  lift (settle (RejectedWith e)).

Definition read_descriptor : action file :=
  fun w => (Return (descriptor w), w).

(** A call of the client with a reaction on its promise: the call is
    made; it throws, or its promise is in flight. *)
Definition issue (c : call) (k : reaction) : action unit :=
  fun w =>
    let w1 := add_event (Issue c) w in
    match throws (remote w1) c with
    | Some e => (Throw e, w1)
    | None => (Return tt, add_pending c k w1)
    end.

(** A promise job whose result nobody looks at: what it throws is an
    unhandled rejection. *)
Definition job (m : action unit) : world -> world :=
  fun w =>
    match m w with
    | (Return _, w1) => w1
    | (Throw e, w1) => add_event (Unhandled e) w1
    end.

(** *** [checkBucket] *)

(** The reaction [data => { if (!data[0]) { try { ... } catch ... } }]
    on [bucket.exists()]. *)
Definition checkBucket_exists_then (bucketName bucketLocation : JS.value)
    (data0 : bool) : action unit :=
  if negb data0 then
    catch
      (issue (CreateBucket bucketName bucketLocation "multi_regional")
         (AfterCreateBucket bucketName))
      (fun _ => throw (Error (creation_failed bucketName)))
  else ret tt.

(** *** [upload] *)

(** The first reaction chained on [checkBucket(...)]. *)
Definition upload_check_existing (cfg : config) (key : string)
  : action unit :=
  issue (FileExists (bucketName cfg) key) (AfterFileExists cfg key).

(** The second reaction chained on [checkBucket(...)]. *)
Definition upload_save (cfg : config) (key : string) : action unit :=
  (f <- read_descriptor ;;
   issue
     (FileSave (bucketName cfg) key (buffer f) (mime f) true
        ("inline; filename=" ++ quoted (name f)))
     (AfterSave cfg key))%action.

(** The promise of [checkBucket] is settled with [r]: the caller's
    reactions run. For [upload] these are [.then(A).then(B)] without a
    rejection handler: [B] runs as soon as [A] has returned. *)
Definition checkBucket_settled (who : caller) (r : result unit)
  : world -> world :=
  match who, r with
  | Direct, Return _ => settle Resolved
  | Direct, Throw e => settle (RejectedWith e)
  | FromUpload cfg key, Return _ =>
      job (upload_check_existing cfg key ;; upload_save cfg key)%action
  | FromUpload _ _, Throw e => add_event (Unhandled e)
  end.

(** The body of [checkBucket] up to its [await]. *)
Definition checkBucket (bucketName bucketLocation : JS.value)
    (who : caller) : world -> world :=
  fun w =>
    match issue (BucketExists bucketName)
            (AfterBucketExists bucketName bucketLocation who) w with
    | (Return _, w1) => w1
    | (Throw e, w1) => checkBucket_settled who (Throw e) w1
    end.

(** The executor of the promise returned by [upload]. *)
Definition upload (cfg : config) : world -> world :=
  fun w =>
    let key := upload_key (descriptor w) in
    checkBucket (bucketName cfg) (bucketLocation cfg) (FromUpload cfg key)
      w.

(** *** [delete] *)

(** The promise returned by [delete]: what its executor throws rejects
    it. *)
Definition delete (cfg : config) : world -> world :=
  fun w =>
    let key := delete_key (descriptor w) in
    match
      (issue (FileDelete (bucketName cfg) key) AfterDelete ;;
       f <- read_descriptor ;;
       log Debug ("File " ++ JS.to_text (url f) ++ " successfully deleted") ;;
       resolve)%action w
    with
    | (Return _, w1) => w1
    | (Throw e, w1) => settle (RejectedWith e) w1
    end.

(** *** Reactions *)

Definition is_404 (e : error) : bool :=
  match code e with
  | Some n => (n =? 404)%Z
  | None => false
  end.

(** The reaction to the answer of a call. *)
Definition react (k : reaction) (resp : response) : world -> world :=
  match k, resp with
  | AfterBucketExists b loc who, Fulfilled data0 =>
      fun w =>
        let (r, w1) := checkBucket_exists_then b loc data0 w in
        checkBucket_settled who r w1
  | AfterBucketExists _ _ who, Rejected e =>
      checkBucket_settled who (Throw e)
  | AfterCreateBucket b, Fulfilled _ =>
      job (log Debug ("Bucket " ++ JS.to_text b ++ " successfully created."))
  | AfterCreateBucket _, Rejected e => add_event (Unhandled e)
  | AfterFileExists cfg key, Fulfilled exist0 =>
      job (if exist0 then
             log Info "File already exist, try to remove it." ;;
             issue (FileDelete (bucketName cfg) key) AfterPreDelete
           else ret tt)%action
  | AfterFileExists _ _, Rejected e => add_event (Unhandled e)
  | AfterPreDelete, Fulfilled _ =>
      job (log Info "File has been removed with success.")
  | AfterPreDelete, Rejected e =>
      job (if is_404 e then log Warn not_found_warning else ret tt)
  | AfterSave cfg key, Fulfilled _ =>
      job (catch
             (lift (set_url (url_of cfg key)) ;;
              log Debug ("File successfully uploaded to " ++ url_of cfg key) ;;
              resolve)%action
             reject)
  | AfterSave _ _, Rejected e => job (reject e)
  | AfterDelete, Fulfilled _ => fun w => w
  | AfterDelete, Rejected e =>
      job (if is_404 e then log Warn not_found_warning else reject e)
  end.

(** *** The event loop *)

Fixpoint remove_nth {A} (i : nat) (l : list A) : list A :=
  match i, l with
  | _, [] => []
  | O, _ :: r => r
  | S j, x :: r => x :: remove_nth j r
  end.

(** One turn: the answer to the [i]-th call in flight arrives and its
    reaction runs. *)
Definition deliver (i : nat) (w : world) : option world :=
  match nth_error (pending w) i with
  | None => None
  | Some (c, k) =>
      let (resp, r') := respond (remote w) c in
      Some (react k resp
              (mkWorld r' (remove_nth i (pending w)) (trace w) (promise w)
                 (descriptor w)))
  end.

(** The turns of a schedule, which names the call answered at each turn;
    a turn that names no call in flight does nothing. *)
Fixpoint run (schedule : list nat) (w : world) : world :=
  match schedule with
  | [] => w
  | i :: rest =>
      match deliver i w with
      | Some w' => run rest w'
      | None => run rest w
      end
  end.

(** The calls made, in order. *)
Fixpoint calls (t : list event) : list call :=
  match t with
  | [] => []
  | Issue c :: rest => c :: calls rest
  | _ :: rest => calls rest
  end.

End EventLoop.

Arguments mkWorld {R} remote pending trace promise descriptor.
Arguments remote {R} w.
Arguments pending {R} w.
Arguments trace {R} w.
Arguments promise {R} w.
Arguments descriptor {R} w.
Arguments new_world {R} r f.
Arguments add_event {R} e w.
Arguments add_pending {R} c k w.
Arguments settle {R} s w.
Arguments set_url {R} u w.
Arguments ret {R A} a w.
Arguments throw {R A} e w.
Arguments bind {R A B} m k w.
Arguments catch {R A} m handler w.
Arguments lift {R} step w.
Arguments log {R} l msg w.
Arguments resolve {R} w.
Arguments reject {R} e w.
Arguments read_descriptor {R} w.
Arguments issue {R} throws c k w.
Arguments job {R} m w.
Arguments checkBucket_exists_then {R} throws bucketName bucketLocation data0 w.
Arguments upload_check_existing {R} throws cfg key w.
Arguments upload_save {R} throws cfg key w.
Arguments checkBucket_settled {R} throws who r w.
Arguments checkBucket {R} throws bucketName bucketLocation who w.
Arguments upload {R} throws cfg w.
Arguments delete {R} throws cfg w.
Arguments react {R} throws k resp w.
Arguments deliver {R} throws respond i w.
Arguments run {R} throws respond schedule w.

(** ** The object key in the words of the specification *)

(** The related reference of a file, when the first entry of [related] has
    one: the owner type and the owner id. *)
Definition related_reference (f : file) : option (JS.value * JS.value) :=
  match related f with
  | Some (r :: _) => if JS.truthy (ref r) then Some (ref r, refId r) else None
  | _ => None
  end.

(** The folder: the explicit path if present, else
    [<relatedRef>/<relatedRefId>] if a related reference exists, else the
    hash. *)
Definition spec_folder (f : file) : string :=
  if JS.truthy (path f) then JS.to_text (path f)
  else
    match related_reference f with
    | Some (r, i) => JS.to_text r ++ "/" ++ JS.to_text i
    | None => JS.to_text (hash f)
    end.

(** Every character of a text satisfies [p]. *)
Fixpoint all_chars (p : ascii -> bool) (s : string) : bool :=
  match s with
  | EmptyString => true
  | String c r => p c && all_chars p r
  end.








(** The descriptor with another [related] field. *)
Definition with_related (f : file) (rel : option (list related_entry))
  : file :=
  mkFile (name f) (ext f) (mime f) (buffer f) (path f) (hash f) rel (url f).

(** In a list of calls, no delete of an object comes before the first
    write of an object. *)
Fixpoint write_precedes_delete (cs : list call) : bool :=
  match cs with
  | [] => true
  | FileSave _ _ _ _ _ _ :: _ => true
  | FileDelete _ _ :: _ => false
  | _ :: rest => write_precedes_delete rest
  end.

Definition is_write (c : call) : bool :=
  match c with
  | FileSave _ _ _ _ _ _ => true
  | _ => false
  end.

Definition is_delete (c : call) : bool :=
  match c with
  | FileDelete _ _ => true
  | _ => false
  end.

(** ** A storage service in memory

    A small service used to run the code on examples: it holds the names
    of its buckets and the objects (bucket, key, content) written to them,
    and no call throws at the call site. *)
Module Memory.

Record store : Type := mkStore {
  buckets : list string;
  objects : list (string * string * string)
}.

Definition same_object (b k : string) (o : string * string * string)
  : bool :=
  let '(b', k', _) := o in (b' =? b) && (k' =? k).

Definition has_bucket (s : store) (b : string) : bool :=
  existsb (String.eqb b) (buckets s).

Definition has_object (s : store) (b k : string) : bool :=
  existsb (same_object b k) (objects s).

Definition not_found : error := mkError (Some 404%Z) "No such object".

Definition conflict : error :=
  mkError (Some 409%Z) "You already own this bucket.".

Definition throws (s : store) (c : call) : option error := None.

Definition respond (s : store) (c : call) : response * store :=
  match c with
  | BucketExists b => (Fulfilled (has_bucket s (JS.to_text b)), s)
  | CreateBucket b _ _ =>
      if has_bucket s (JS.to_text b) then (Rejected conflict, s)
      else
        (Fulfilled true, mkStore (JS.to_text b :: buckets s) (objects s))
  | FileExists b k => (Fulfilled (has_object s (JS.to_text b) k), s)
  | FileDelete b k =>
      if has_object s (JS.to_text b) k then
        (Fulfilled true,
         mkStore (buckets s)
           (filter (fun o => negb (same_object (JS.to_text b) k o))
              (objects s)))
      else (Rejected not_found, s)
  | FileSave b k data _ _ _ =>
      (Fulfilled true,
       mkStore (buckets s)
         ((JS.to_text b, k, data)
            :: filter (fun o => negb (same_object (JS.to_text b) k o))
                 (objects s)))
  end.

End Memory.

(** A service whose every call is rejected with the same error. *)
Module Failing.

Definition throws (e : error) (c : call) : option error := None.

Definition respond (e : error) (c : call) : response * error :=
  (Rejected e, e).

End Failing.

(** ** Example data *)

Definition photo : file :=
  mkFile "Photo.JPG" ".jpg" "image/jpeg" "bytes" (JS.Str "uploads")
    JS.Undefined None JS.Undefined.

Definition photo_config : config :=
  mkConfig (JS.Str "{}") (JS.Str "my-bucket") (JS.Str "eu")
    "https://storage.googleapis.com/{bucket-name}".

(** A file filed under its owner, whose hash spells the same folder. *)
Definition avatar : file :=
  mkFile "a.png" ".png" "image/png" "bytes" JS.Undefined
    (JS.Str "user/5") (Some [mkRelated (JS.Str "user") (JS.Num 5)])
    JS.Undefined.

(** A service account file without its [project_id]. *)
Definition account_text : string :=
  "{" ++ quoted "client_email" ++ ":" ++ quoted "robot@example.org" ++ ","
  ++ quoted "private_key" ++ ":" ++ quoted "secret" ++ "}".

Definition account_config : config :=
  mkConfig (JS.Str account_text) (JS.Str "my-bucket") (JS.Str "eu")
    "https://storage.googleapis.com/{bucket-name}".

(** [JSON.parse] on the texts of the examples. *)
Definition parse_sample (text : string) : result json :=
  if text =? account_text then
    Return (JObject [("client_email", JString "robot@example.org");
                     ("private_key", JString "secret")])
  else if text =? "{}" then Return (JObject [])
  else if text =? "null" then Return JNull
  else Throw (Error "Unexpected token in JSON").

(** A file filed under its owner, with a hash of its own. *)
Definition portrait : file :=
  mkFile "b.png" ".png" "image/png" "bytes" JS.Undefined
    (JS.Str "9f3a") (Some [mkRelated (JS.Str "user") (JS.Num 5)])
    JS.Undefined.

(** A configuration without a bucket name. *)
Definition nameless_config : config :=
  mkConfig (JS.Str "{}") JS.Undefined (JS.Str "eu") "https://{bucket-name}".

(** A service on which the buckets do not exist and may not be created. *)
Module Denied.

Definition forbidden : error := mkError (Some 403%Z) "Forbidden".

Definition throws (s : unit) (c : call) : option error := None.

Definition respond (s : unit) (c : call) : response * unit :=
  match c with
  | BucketExists _ => (Fulfilled false, tt)
  | CreateBucket _ _ _ => (Rejected forbidden, tt)
  | _ => (Fulfilled true, tt)
  end.

End Denied.

Definition backend_error : error := mkError (Some 500%Z) "Backend Error".

(** A bucket that holds an object at the key of [photo]. *)
Definition photo_store : Memory.store :=
  Memory.mkStore ["my-bucket"]
    [("my-bucket", "uploads/Photo.JPG.jpg", "old bytes")].

(** ** Invariants of the event loop *)

Section Invariants.

Context {R : Type}.

(** After the executor of [delete]: the promise is resolved and only the
    reaction of [delete] is in flight. *)
Definition delete_settled (w : world R) : Prop :=
  promise w = Resolved
  /\ Forall (fun ck => snd ck = AfterDelete) (pending w).

(** After a direct call of [checkBucket] from [w]: the existence check is
    the one call added, and it is in flight or answered. *)
Definition checked (w : world R) (b loc : JS.value) (x : world R) : Prop :=
  calls (trace x) = (calls (trace w) ++ [BucketExists b])%list
  /\ (pending x = []
      \/ (pending x = [(BucketExists b, AfterBucketExists b loc Direct)]
          /\ remote x = remote w)).

(** The reaction to the existence check of the object is the one that
    issues the delete; it is in flight only once the write is issued. *)
Definition waits_for_write (t : list event) (ck : call * reaction) : Prop :=
  match snd ck with
  | AfterFileExists _ _ => existsb is_write (calls t) = true
  | _ => True
  end.

Definition write_first (w : world R) : Prop :=
  write_precedes_delete (calls (trace w)) = true
  /\ Forall (waits_for_write (trace w)) (pending w).

(** The reactions of one [upload] with configuration [cfg] to [key]. *)
Definition of_upload (cfg : config) (key : string) (ck : call * reaction)
  : Prop :=
  match snd ck with
  | AfterBucketExists _ _ who => who = FromUpload cfg key
  | AfterSave c k => c = cfg /\ k = key
  | AfterDelete => False
  | _ => True
  end.

(** A resolved [upload] has written [file.url]. *)
Definition url_written (cfg : config) (key : string) (w : world R) : Prop :=
  (promise w = Resolved -> url (descriptor w) = JS.Str (url_of cfg key))
  /\ Forall (of_upload cfg key) (pending w).

End Invariants.

(** ** The settings offered to the host (the [auth] description) *)
Module Auth.

(** [auth.baseUrl.values]. *)
Definition baseUrl_values : list string :=
  ["https://storage.googleapis.com/{bucket-name}";
   "https://{bucket-name}";
   "http://{bucket-name}"].

End Auth.

(** A client that throws the same error at every call site. *)
Module Offline.

Definition throws (e : error) (c : call) : option error := Some e.

Definition respond (e : error) (c : call) : response * error :=
  (Rejected e, e).

End Offline.

(** A client on which the buckets do not exist and the creation call
    throws at the call site. *)
Module Refusing.

Definition invalid : error := mkError None "A name is required.".

Definition throws (s : unit) (c : call) : option error :=
  match c with
  | CreateBucket _ _ _ => Some invalid
  | _ => None
  end.

Definition respond (s : unit) (c : call) : response * unit :=
  match c with
  | BucketExists _ => (Fulfilled false, tt)
  | _ => (Fulfilled true, tt)
  end.

End Refusing.

(** A file with a name only: no path, no related reference, no hash. *)
Definition bare : file :=
  mkFile "notes.txt" ".txt" "text/plain" "bytes" JS.Undefined JS.Undefined
    None JS.Undefined.

(** A text without the character that starts a replacement pattern. *)
Fixpoint dollar_free (s : string) : bool :=
  match s with
  | EmptyString => true
  | String c r => negb (c =? "$")%char && dollar_free r
  end.

(** ** Counting calls and reactions *)

Definition is_bucket_check (c : call) : bool :=
  match c with
  | BucketExists _ => true
  | _ => false
  end.

Definition is_creation (c : call) : bool :=
  match c with
  | CreateBucket _ _ _ => true
  | _ => false
  end.

Definition is_object_check (c : call) : bool :=
  match c with
  | FileExists _ _ => true
  | _ => false
  end.

Definition after_bucket_check (k : reaction) : bool :=
  match k with
  | AfterBucketExists _ _ _ => true
  | _ => false
  end.

Definition after_object_check (k : reaction) : bool :=
  match k with
  | AfterFileExists _ _ => true
  | _ => false
  end.

Definition after_write (k : reaction) : bool :=
  match k with
  | AfterSave _ _ => true
  | _ => false
  end.

Section Counting.

Context {R : Type}.

(** The number of calls of a kind made so far. *)
Definition made (p : call -> bool) (w : world R) : nat :=
  List.length (filter p (calls (trace w))).

(** The number of reactions of a kind in flight. *)
Definition waiting (q : reaction -> bool) (w : world R) : nat :=
  List.length (filter (fun ck => q (snd ck)) (pending w)).

End Counting.

(** ** The calls and reactions of one [upload] *)

Section UploadShape.

Variables (cfg : config) (f : file).

(** The five calls that [upload] of [f] may make. *)
Definition upload_calls : list call :=
  [BucketExists (bucketName cfg);
   CreateBucket (bucketName cfg) (bucketLocation cfg) "multi_regional";
   FileExists (bucketName cfg) (upload_key f);
   FileSave (bucketName cfg) (upload_key f) (buffer f) (mime f) true
     ("inline; filename=" ++ quoted (name f));
   FileDelete (bucketName cfg) (upload_key f)].

(** A call in flight of this [upload], with the reaction it carries. *)
Definition upload_pending (ck : call * reaction) : Prop :=
  match snd ck with
  | AfterBucketExists b loc who =>
      fst ck = BucketExists (bucketName cfg)
      /\ b = bucketName cfg /\ loc = bucketLocation cfg
      /\ who = FromUpload cfg (upload_key f)
  | AfterCreateBucket b => b = bucketName cfg
  | AfterFileExists c k =>
      fst ck = FileExists (bucketName cfg) (upload_key f)
      /\ c = cfg /\ k = upload_key f
  | AfterPreDelete => True
  | AfterSave c k =>
      fst ck = FileSave (bucketName cfg) (upload_key f) (buffer f) (mime f)
                 true ("inline; filename=" ++ quoted (name f))
      /\ c = cfg /\ k = upload_key f
  | AfterDelete => False
  end.

(** The promise of [upload] against the descriptor: the url is written
    exactly when the promise is resolved, and a settled promise has the
    write behind it: issued, answered, and no other to come. *)
Definition upload_outcome {R : Type} (w : world R) : Prop :=
  match promise w with
  | Pending => descriptor w = f
  | Resolved =>
      descriptor w = with_url f (url_of cfg (upload_key f))
      /\ waiting after_bucket_check w + waiting after_write w = 0
      /\ made is_write w = 1
  | RejectedWith _ =>
      descriptor w = f
      /\ waiting after_bucket_check w + waiting after_write w = 0
      /\ made is_write w = 1
  end.

(** What every world of a run of [upload] satisfies. *)
Definition upload_shape {R : Type} (w : world R) : Prop :=
  Forall (fun c => In c upload_calls) (calls (trace w))
  /\ Forall upload_pending (pending w)
  /\ made is_bucket_check w = 1
  /\ waiting after_bucket_check w + made is_creation w <= 1
  /\ waiting after_bucket_check w + made is_object_check w <= 1
  /\ waiting after_bucket_check w + made is_write w <= 1
  /\ waiting after_bucket_check w + waiting after_object_check w
     + made is_delete w <= 1
  /\ waiting after_bucket_check w + waiting after_write w <= 1
  /\ waiting after_write w <= made is_write w
  /\ upload_outcome w.

End UploadShape.


(** A service whose buckets exist and are empty: no object is ever found,
    and every other call succeeds. *)
Module Vacant.

Definition throws (s : unit) (c : call) : option error := None.

Definition respond (s : unit) (c : call) : response * unit :=
  match c with
  | FileExists _ _ => (Fulfilled false, tt)
  | _ => (Fulfilled true, tt)
  end.

End Vacant.

(** * Properties *)

(** ** Facts about strings *)

Lemma append_assoc (a b c : string) : (a ++ b) ++ c = a ++ (b ++ c).
Proof. induction a as [|x a IH]; simpl; [reflexivity | now rewrite IH]. Qed.

Lemma list_of_append (a b : string) :
  list_ascii_of_string (a ++ b)
  = (list_ascii_of_string a ++ list_ascii_of_string b)%list.
Proof. induction a as [|x a IH]; simpl; [reflexivity | now rewrite IH]. Qed.

Lemma append_inv_tail (a b s : string) : a ++ s = b ++ s -> a = b.
Proof.
  intros H.
  apply (f_equal list_ascii_of_string) in H.
  rewrite !list_of_append in H.
  apply app_inv_tail in H.
  rewrite <- (string_of_list_ascii_of_string a).
  rewrite <- (string_of_list_ascii_of_string b).
  now rewrite H.
Qed.

(** ** Object keys *)

(** The library functions on the file name of the example. *)
Example basename_photo : Path.basename "Photo.JPG" ".jpg" = "Photo.JPG".
Proof. reflexivity. Qed.

Example basename_same_case : Path.basename "Photo.JPG" ".JPG" = "Photo".
Proof. reflexivity. Qed.

Example slugify_photo : Slugify.slugify "Photo.JPG" = "Photo.JPG".
Proof. reflexivity. Qed.

Example slugify_spaces :
  Slugify.slugify " My  summer - photo & more #1.png "
  = "My-summer-photo-and-more-1.png".
Proof. reflexivity. Qed.

Lemma related_reference_present (f : file) :
  related_ref_present f
  = match related_reference f with Some _ => true | None => false end.
Proof.
  unfold related_ref_present, related_reference.
  destruct (related f) as [[|r rs]|]; simpl; try reflexivity.
  destruct (JS.truthy (ref r)); reflexivity.
Qed.

Lemma upload_filePath_spec (f : file) :
  upload_filePath f = spec_folder f ++ "/".
Proof.
  unfold upload_filePath, spec_folder, backupPath, related_ref_present,
    related_reference, related0.
  destruct (JS.truthy (path f)); [reflexivity|].
  destruct (related f) as [[|r rs]|]; simpl; try reflexivity.
  destruct (JS.truthy (ref r)); reflexivity.
Qed.

(** ** The parts of the key *)











Lemma keep_allowed_kept (s : string) :
  all_chars Slugify.allowed (Slugify.keep_allowed s) = true.
Proof.
  induction s as [|c s IH]; simpl; [reflexivity|].
  destruct (Slugify.allowed c) eqn:E; simpl; [now rewrite E|exact IH].
Qed.











(** *** [basename] *)









(** *** The key of [upload] *)




Lemma keys_differ_iff (f : file) :
  delete_key f <> upload_key f <-> delete_filePath f <> upload_filePath f.
Proof.
  unfold delete_key, upload_key. split; intros H E; apply H.
  - now rewrite E.
  - now apply append_inv_tail in E.
Qed.

(** Claim C7, as stated, fails: the key of [avatar] is derived by [upload]
    from its related reference, and [delete] computes the same key, because
    the hash of the file spells the same folder. *)
Lemma avatar_same_key :
  JS.truthy (path avatar) = false
  /\ related_reference avatar = Some (JS.Str "user", JS.Num 5)
  /\ upload_key avatar = "user/5/a.png"
  /\ delete_key avatar = upload_key avatar.
Proof. repeat split. Qed.

(** Claim C7, amended. The key computed by [delete] does not depend on
    [related]: its folder is the explicit path or, absent that, the hash.
    For a file whose [upload] key is derived from a related reference, the
    two keys differ exactly when the text of the hash is not
    [<ref>/<refId>]. *)
Theorem delete_key_ignores_related (f : file) :
  (forall rel, delete_key (with_related f rel) = delete_key f)
  /\ delete_key f
     = (if JS.truthy (path f) then JS.to_text (path f)
        else JS.to_text (hash f)) ++ "/" ++ fileName f
  /\ (JS.truthy (path f) = false ->
      forall r i, related_reference f = Some (r, i) ->
      upload_key f = JS.to_text r ++ "/" ++ JS.to_text i ++ "/" ++ fileName f
      /\ (delete_key f <> upload_key f
          <-> JS.to_text (hash f) <> JS.to_text r ++ "/" ++ JS.to_text i)).
Proof.
  split; [intros rel; reflexivity|].
  split.
  - unfold delete_key, delete_filePath.
    destruct (JS.truthy (path f)); now rewrite append_assoc.
  - intros Hp r i Hr. split.
    + unfold upload_key. rewrite upload_filePath_spec.
      unfold spec_folder. rewrite Hp, Hr. now rewrite !append_assoc.
    + rewrite keys_differ_iff, upload_filePath_spec.
      unfold delete_filePath, spec_folder. rewrite Hp, Hr.
      split; intros H E; apply H.
      * now rewrite E.
      * now apply append_inv_tail in E.
Qed.

Lemma delete_key_ignores_related_witness :
  delete_key portrait = "9f3a/b.png"
  /\ upload_key portrait = "user/5/b.png"
  /\ delete_key portrait <> upload_key portrait.
Proof.
  destruct (delete_key_ignores_related portrait) as (_ & _ & H).
  destruct (H eq_refl (JS.Str "user") (JS.Num 5) eq_refl) as [_ [_ K]].
  split; [reflexivity|]. split; [reflexivity|].
  apply K. simpl. discriminate.
Defined.



(** ** The service account check *)

Section ValidationFacts.

Variable JSON_parse : string -> result json.

(** Whatever is thrown inside the [try] block comes out as the one message
    of the [catch] block. *)
Lemma checkServiceAccount_outcomes (cfg : config) :
  JS.truthy (serviceAccount cfg) = true ->
  JS.truthy (bucketName cfg) = true ->
  checkServiceAccount JSON_parse cfg = Throw (Error parsing_failed)
  \/ exists sa,
       JSON_parse (JS.to_text (serviceAccount cfg)) = Return sa
       /\ checkServiceAccount JSON_parse cfg = Return sa
       /\ forall fld, truthy_json (read_property sa fld) = true.
Proof.
  intros Hs Hb. unfold checkServiceAccount. rewrite Hs, Hb. simpl.
  destruct (JSON_parse (JS.to_text (serviceAccount cfg))) as [sa|e];
    simpl; [|now left].
  unfold read_property.
  destruct (get_property sa project_id) as [p|] eqn:Ep; simpl; [|now left].
  destruct (truthy_json p) eqn:Tp; simpl; [|now left].
  destruct (get_property sa client_email) as [c|] eqn:Ec; simpl;
    [|now left].
  destruct (truthy_json c) eqn:Tc; simpl; [|now left].
  destruct (get_property sa private_key) as [k|] eqn:Ek; simpl;
    [|now left].
  destruct (truthy_json k) eqn:Tk; simpl; [|now left].
  right. exists sa. repeat split.
  intros []; [rewrite Ep | rewrite Ec | rewrite Ek]; assumption.
Qed.

(** Claim C4. For a service account that parses and lacks one of the three
    fields, [checkServiceAccount] throws the message of its [catch] block,
    which names no field; the message that names the field is thrown
    inside the [try] block and caught there. *)
Theorem missing_field_message_lost
    (cfg : config) (sa : json) (fld : field) :
  JS.truthy (serviceAccount cfg) = true ->
  JS.truthy (bucketName cfg) = true ->
  JSON_parse (JS.to_text (serviceAccount cfg)) = Return sa ->
  truthy_json (read_property sa fld) = false ->
  checkServiceAccount JSON_parse cfg = Throw (Error parsing_failed)
  /\ JS.includes (field_name fld) parsing_failed = false
  /\ JS.includes (field_name fld) (missing_field fld) = true.
Proof.
  intros Hs Hb Hp Hf. split.
  - destruct (checkServiceAccount_outcomes cfg Hs Hb)
      as [H|(sa' & P & _ & T)]; [exact H|].
    rewrite Hp in P. injection P as <-. now rewrite T in Hf.
  - destruct fld; split; reflexivity.
Qed.

(** Claim C8. When [serviceAccount] or [bucketName] is absent (falsy),
    [checkServiceAccount] throws the error that says which is required,
    and [init] throws it before it has constructed the storage client or
    made any call. *)
Theorem absent_setting_throws_first (cfg : config) :
  JS.truthy (serviceAccount cfg) = false
  \/ JS.truthy (bucketName cfg) = false ->
  exists msg,
    (msg = required_serviceAccount \/ msg = required_bucketName)
    /\ checkServiceAccount JSON_parse cfg = Throw (Error msg)
    /\ init JSON_parse cfg = ([], Throw (Error msg)).
Proof.
  intros H. unfold init, checkServiceAccount.
  destruct (JS.truthy (serviceAccount cfg)) eqn:Hs; simpl.
  - destruct H as [H|H]; [discriminate|]. rewrite H. simpl.
    exists required_bucketName. auto.
  - exists required_serviceAccount. auto.
Qed.

End ValidationFacts.

Lemma missing_field_message_lost_witness :
  checkServiceAccount parse_sample account_config
  = Throw (Error parsing_failed)
  /\ JS.includes "project_id" parsing_failed = false
  /\ JS.includes "project_id" (missing_field project_id) = true.
Proof.
  apply (missing_field_message_lost parse_sample account_config
           (JObject [("client_email", JString "robot@example.org");
                     ("private_key", JString "secret")])
           project_id); reflexivity.
Defined.

Lemma absent_setting_throws_first_witness :
  exists msg,
    (msg = required_serviceAccount \/ msg = required_bucketName)
    /\ checkServiceAccount parse_sample nameless_config = Throw (Error msg)
    /\ init parse_sample nameless_config = ([], Throw (Error msg)).
Proof.
  apply absent_setting_throws_first. right. reflexivity.
Defined.

(** A complete service account passes, and [init] constructs the client. *)
Example init_complete_account :
  let sa := JObject [("project_id", JString "p");
                     ("client_email", JString "e");
                     ("private_key", JString "k")] in
  init (fun _ => Return sa) photo_config
  = ([NewStorage (Some (JString "p")) (Some (JString "e"))
        (Some (JString "k"))],
     Return (mkProvider photo_config sa)).
Proof. reflexivity. Qed.

(** ** The event loop *)

Section EventLoopFacts.

Context {R : Type}.
Variable throws : R -> call -> option error.
Variable respond : R -> call -> response * R.

(** A property kept by every turn holds after every schedule. *)
Lemma run_invariant (I : world R -> Prop) :
  (forall i w w', I w -> deliver throws respond i w = Some w' -> I w') ->
  forall schedule w, I w -> I (run throws respond schedule w).
Proof.
  intros step schedule.
  induction schedule as [|i rest IH]; intros w Hw; simpl; [exact Hw|].
  destruct (deliver throws respond i w) as [w'|] eqn:E; eauto.
Qed.

Lemma Forall_remove_nth {A} (P : A -> Prop) (i : nat) (l : list A) :
  Forall P l -> Forall P (remove_nth i l).
Proof.
  intros H. revert i.
  induction H as [|x l Hx Hl IH]; intros [|i]; simpl; auto.
Qed.

(** A turn, spelled out. *)
Lemma deliver_inv (i : nat) (w w' : world R) :
  deliver throws respond i w = Some w' ->
  exists c k resp r',
    nth_error (pending w) i = Some (c, k)
    /\ In (c, k) (pending w)
    /\ respond (remote w) c = (resp, r')
    /\ w' = react throws k resp
              (mkWorld r' (remove_nth i (pending w)) (trace w)
                 (promise w) (descriptor w)).
Proof.
  unfold deliver.
  destruct (nth_error (pending w) i) as [[c k]|] eqn:E; [|discriminate].
  destruct (respond (remote w) c) as [resp r'] eqn:Er.
  intros [= <-]. exists c, k, resp, r'.
  split; [reflexivity|].
  split; [eapply nth_error_In; eassumption|]. split; [exact Er|reflexivity].
Qed.

Ltac unfold_turn :=
  cbv [react job bind catch lift log resolve reject issue ret throw
       read_descriptor checkBucket_exists_then checkBucket_settled
       upload_check_existing upload_save].

Ltac split_throws :=
  match goal with
  | |- context [throws ?r ?c] => destruct (throws r c)
  end.

(** *** Calls of a trace *)

Lemma calls_app (t t' : list event) :
  calls (t ++ t') = (calls t ++ calls t')%list.
Proof.
  induction t as [|[] t IH]; simpl; try assumption.
  - reflexivity.
  - now rewrite IH.
Qed.

Lemma write_precedes_delete_snoc (cs : list call) (c : call) :
  write_precedes_delete cs = true ->
  is_delete c = false \/ existsb is_write cs = true ->
  write_precedes_delete (cs ++ [c]) = true.
Proof.
  intros H Hc.
  induction cs as [|x cs IH]; simpl in *.
  - destruct Hc as [Hc|Hc]; [|discriminate]. now destruct c.
  - destruct x; simpl in *; auto; discriminate.
Qed.

(** *** [delete] *)

Lemma delete_settled_step (i : nat) (w w' : world R) :
  delete_settled w -> deliver throws respond i w = Some w' ->
  delete_settled w'.
Proof.
  intros [Hp Hk] D.
  destruct (deliver_inv _ _ _ D) as (c & k & resp & r' & _ & Hin & _ & ->).
  assert (k = AfterDelete) as ->.
  { rewrite Forall_forall in Hk. exact (Hk _ Hin). }
  apply (Forall_remove_nth _ i) in Hk.
  unfold delete_settled.
  destruct resp as [d|e]; simpl; [auto|].
  unfold job, reject, log, lift, settle, add_event.
  destruct (is_404 e); simpl; rewrite ?Hp; simpl; auto.
Qed.

Lemma delete_resolves_at_once (cfg : config) (f : file) (r : R) :
  throws r (FileDelete (bucketName cfg) (delete_key f)) = None ->
  forall schedule,
    promise (run throws respond schedule (delete throws cfg (new_world r f)))
    = Resolved.
Proof.
  intros Ht schedule.
  apply (run_invariant delete_settled); [apply delete_settled_step|].
  unfold delete, bind, issue. simpl. rewrite Ht. simpl.
  split; [reflexivity|]. repeat constructor.
Qed.

(** Claim C2. The storage delete of [delete] is rejected with an error
    whose code is not 404: the promise of [delete] was resolved by its
    executor, it is still resolved once the rejection has arrived and
    nothing is in flight, and no schedule rejects it. *)
Theorem delete_resolves_despite_failure
    (cfg : config) (f : file) (r r' : R) (e : error) :
  throws r (FileDelete (bucketName cfg) (delete_key f)) = None ->
  respond r (FileDelete (bucketName cfg) (delete_key f)) = (Rejected e, r') ->
  is_404 e = false ->
  let w0 := delete throws cfg (new_world r f) in
  promise w0 = Resolved
  /\ promise (run throws respond [0] w0) = Resolved
  /\ pending (run throws respond [0] w0) = []
  /\ forall schedule, promise (run throws respond schedule w0) = Resolved.
Proof.
  intros Ht Hr He w0.
  split; [exact (delete_resolves_at_once cfg f r Ht [])|].
  split; [exact (delete_resolves_at_once cfg f r Ht [0])|].
  split; [|exact (delete_resolves_at_once cfg f r Ht)].
  unfold w0, delete, bind, issue, run, deliver. simpl. rewrite Ht. simpl.
  rewrite Hr. simpl. unfold job, reject, lift. now rewrite He.
Qed.

(** *** [checkBucket] *)

(** Claim C9. When the existence check answers that the bucket exists,
    [checkBucket] makes that one call and no creation call, whatever was
    done before; so it creates nothing when called after a call that
    created the bucket. *)
Theorem checkBucket_existing_creates_nothing
    (w : world R) (b loc : JS.value) (r' : R) :
  pending w = [] ->
  throws (remote w) (BucketExists b) = None ->
  respond (remote w) (BucketExists b) = (Fulfilled true, r') ->
  forall schedule,
    calls (trace (run throws respond schedule
                    (checkBucket throws b loc Direct w)))
    = (calls (trace w) ++ [BucketExists b])%list.
Proof.
  intros Hp Ht Hr schedule.
  apply (run_invariant (checked w b loc)).
  - intros i x x' [Hc Hx] D.
    destruct (deliver_inv _ _ _ D)
      as (c & k & resp & r2 & Hn & _ & Hresp & ->).
    destruct Hx as [Hx|[Hx Hrem]]; rewrite Hx in Hn;
      [destruct i; discriminate|].
    destruct i as [|i]; [|destruct i; discriminate].
    injection Hn as <- <-.
    rewrite Hrem, Hr in Hresp. injection Hresp as <- <-.
    split; simpl.
    + unfold settle; simpl. destruct (promise x); exact Hc.
    + left. unfold settle; simpl. rewrite Hx.
      destruct (promise x); reflexivity.
  - unfold checkBucket, issue. simpl. rewrite Ht. simpl. split.
    + unfold add_event, add_pending. simpl. now rewrite calls_app.
    + right. simpl. rewrite Hp. split; reflexivity.
Qed.

(** Claim C5. The bucket does not exist and the promise of the creation
    call is rejected: the promise of [checkBucket] is resolved, before the
    rejection arrives and after it, and the error is left as an unhandled
    rejection; the error that names the bucket is never made. *)
Theorem bucket_creation_rejection_not_surfaced
    (r r1 r2 : R) (f : file) (b loc : JS.value) (e : error) :
  throws r (BucketExists b) = None ->
  respond r (BucketExists b) = (Fulfilled false, r1) ->
  throws r1 (CreateBucket b loc "multi_regional") = None ->
  respond r1 (CreateBucket b loc "multi_regional") = (Rejected e, r2) ->
  let w0 := checkBucket throws b loc Direct (new_world r f) in
  let w1 := run throws respond [0] w0 in
  let w2 := run throws respond [0; 0] w0 in
  promise w1 = Resolved
  /\ promise w2 = Resolved
  /\ pending w2 = []
  /\ trace w2 = [Issue (BucketExists b);
                 Issue (CreateBucket b loc "multi_regional");
                 Unhandled e].
Proof.
  intros T0 R0 T1 R1.
  unfold checkBucket, issue, run, deliver. simpl.
  rewrite T0. simpl. rewrite R0. simpl.
  unfold checkBucket_exists_then, catch, issue. simpl.
  rewrite T1. simpl. rewrite R1. simpl.
  repeat split.
Qed.

(** The creation call throws at the call site: this is the failure that
    the [try] block catches, and the promise of [checkBucket] is rejected
    with the error that names the bucket. *)
Lemma checkBucket_creation_throws
    (r r1 : R) (f : file) (b loc : JS.value) (e : error) :
  throws r (BucketExists b) = None ->
  respond r (BucketExists b) = (Fulfilled false, r1) ->
  throws r1 (CreateBucket b loc "multi_regional") = Some e ->
  promise (run throws respond [0]
             (checkBucket throws b loc Direct (new_world r f)))
  = RejectedWith (Error (creation_failed b)).
Proof.
  intros T0 R0 T1.
  unfold checkBucket, issue, run, deliver. simpl.
  rewrite T0. simpl. rewrite R0. simpl.
  unfold checkBucket_exists_then, catch, issue. simpl. now rewrite T1.
Qed.

(** *** [upload]: the write is issued first *)

Lemma waits_for_write_mono (t : list event) (e : event) ck :
  waits_for_write t ck -> waits_for_write (t ++ [e]) ck.
Proof.
  unfold waits_for_write. destruct (snd ck); auto.
  intros H. rewrite calls_app, existsb_app, H. reflexivity.
Qed.

Lemma write_first_event (e : event) (w : world R) :
  write_first w ->
  (forall c, e = Issue c ->
             is_delete c = false
             \/ existsb is_write (calls (trace w)) = true) ->
  write_first (add_event e w).
Proof.
  intros [Hw Hp] He. split; simpl.
  - rewrite calls_app. destruct e; simpl; rewrite ?app_nil_r; auto.
    apply write_precedes_delete_snoc; auto.
  - eapply Forall_impl; [|exact Hp].
    intros ck. apply waits_for_write_mono.
Qed.

Lemma write_first_pending (c : call) (k : reaction) (w : world R) :
  write_first w -> waits_for_write (trace w) (c, k) ->
  write_first (add_pending c k w).
Proof.
  intros [Hw Hp] Hk. split; simpl; [exact Hw|].
  apply Forall_app. split; [exact Hp|]. now constructor.
Qed.

Lemma write_first_settle (s : promise_state) (w : world R) :
  write_first w -> write_first (settle s w).
Proof. intros H. unfold settle. destruct (promise w); exact H. Qed.

Lemma write_first_url (u : string) (w : world R) :
  write_first w -> write_first (set_url u w).
Proof. intros H. exact H. Qed.

Ltac write_first_steps :=
  repeat first
    [ assumption
    | apply write_first_settle
    | apply write_first_url
    | apply write_first_pending
    | apply write_first_event ];
  try exact I;
  try (intros ? [= <-]; left; reflexivity);
  try (intros ? E; discriminate E).

(** The two reactions chained by [upload] on [checkBucket]: the existence
    check of the object and the write are issued in the same turn. *)
Lemma write_first_chain (cfg : config) (key : string) (w : world R) :
  write_first w ->
  write_first (checkBucket_settled throws (FromUpload cfg key) (Return tt) w).
Proof.
  intros H. unfold_turn.
  split_throws; [write_first_steps|].
  split_throws; destruct H as [Hw Hp]; split; simpl.
  - rewrite !calls_app. simpl. rewrite ?app_nil_r.
    repeat (apply write_precedes_delete_snoc; [|left; reflexivity]).
    exact Hw.
  - repeat (apply Forall_app; split).
    + eapply Forall_impl; [|exact Hp]. intros ck Hck.
      now repeat apply waits_for_write_mono.
    + constructor; [|constructor]. unfold waits_for_write. simpl.
      rewrite !calls_app, !existsb_app. simpl.
      now rewrite !orb_true_r.
  - rewrite !calls_app. simpl.
    repeat (apply write_precedes_delete_snoc; [|left; reflexivity]).
    exact Hw.
  - repeat (apply Forall_app; split).
    + eapply Forall_impl; [|exact Hp]. intros ck Hck.
      now repeat apply waits_for_write_mono.
    + constructor; [|constructor]. unfold waits_for_write. simpl.
      rewrite !calls_app, !existsb_app. simpl.
      now rewrite !orb_true_r.
    + constructor; [|constructor]. exact I.
Qed.

Lemma write_first_step (i : nat) (w w' : world R) :
  write_first w -> deliver throws respond i w = Some w' -> write_first w'.
Proof.
  intros [Hw Hp] D.
  destruct (deliver_inv _ _ _ D) as (c & k & resp & r' & _ & Hin & _ & ->).
  assert (Hk : waits_for_write (trace w) (c, k)).
  { rewrite Forall_forall in Hp. exact (Hp _ Hin). }
  apply (Forall_remove_nth _ i) in Hp.
  set (w0 := mkWorld r' (remove_nth i (pending w)) (trace w) (promise w)
               (descriptor w)).
  assert (H0 : write_first w0) by (split; assumption).
  assert (Ht : trace w0 = trace w) by reflexivity.
  clearbody w0. rewrite <- Ht in Hk. clear Ht Hw Hp Hin D.
  destruct k as [b loc who|b|cfg key| |cfg key|]; destruct resp as [d|e].
  - (* the bucket check is answered *)
    assert (Hc : forall w1, write_first w1 ->
                   forall r,
                     write_first (checkBucket_settled throws who r w1)).
    { intros w1 H1 r. destruct who as [|cfg key].
      - destruct r; simpl; now apply write_first_settle.
      - destruct r as [[]|e]; [now apply write_first_chain|].
        simpl. write_first_steps. }
    unfold react.
    destruct (checkBucket_exists_then throws b loc d w0) as [r1 w1] eqn:E.
    apply Hc.
    unfold checkBucket_exists_then, catch, issue, throw, ret in E.
    destruct d; simpl in E; [now injection E as <- <-|].
    match type of E with
    | context [throws ?r ?c] => destruct (throws r c)
    end; injection E as <- <-; write_first_steps.
  - unfold react. destruct who as [|cfg key]; simpl; write_first_steps.
  - unfold_turn. write_first_steps.
  - unfold_turn. write_first_steps.
  - (* the existence of the object is answered: the write was issued *)
    unfold waits_for_write in Hk. simpl in Hk.
    destruct d; unfold_turn; [|exact H0].
    split_throws; write_first_steps;
      intros ? [= <-]; right; simpl;
      rewrite calls_app, existsb_app, Hk; reflexivity.
  - unfold_turn. write_first_steps.
  - unfold_turn. write_first_steps.
  - unfold_turn. destruct (is_404 e); write_first_steps.
  - unfold_turn. write_first_steps.
  - unfold_turn. write_first_steps.
  - exact H0.
  - unfold_turn. destruct (is_404 e); write_first_steps.
Qed.

(** Claim C3. In every run of [upload], on every service and schedule, no
    delete of the object is issued before the write of the object is
    issued: the write is issued in the turn that issues the existence
    check, so the deletion of an existing object cannot have completed
    before the write is issued. *)
Theorem upload_issues_write_before_delete
    (cfg : config) (f : file) (r : R) (schedule : list nat) :
  write_precedes_delete
    (calls (trace (run throws respond schedule
                     (upload throws cfg (new_world r f))))) = true.
Proof.
  apply (run_invariant write_first); [apply write_first_step|].
  unfold upload, checkBucket, issue.
  split_throws; simpl; repeat split; simpl; repeat constructor.
Qed.

(** *** [upload]: the url of a resolved upload *)

Section UrlWritten.

Variables (cfg : config) (key : string).

Lemma url_written_event (e : event) (w : world R) :
  url_written cfg key w -> url_written cfg key (add_event e w).
Proof. intros H. exact H. Qed.

Lemma url_written_pending (c : call) (k : reaction) (w : world R) :
  url_written cfg key w -> of_upload cfg key (c, k) ->
  url_written cfg key (add_pending c k w).
Proof.
  intros [Hu Hp] Hk. split; [exact Hu|]. simpl.
  apply Forall_app. split; [exact Hp|]. now constructor.
Qed.

Lemma url_written_reject (e : error) (w : world R) :
  url_written cfg key w -> url_written cfg key (settle (RejectedWith e) w).
Proof.
  intros [Hu Hp]. unfold settle.
  destruct (promise w) eqn:E; split; simpl; auto; try discriminate.
  all: rewrite E; assumption.
Qed.

Lemma url_written_resolve (w : world R) :
  url_written cfg key w ->
  url (descriptor w) = JS.Str (url_of cfg key) ->
  url_written cfg key (settle Resolved w).
Proof.
  intros [Hu Hp] Hd. unfold settle.
  destruct (promise w) eqn:E; split; simpl; auto.
  all: rewrite E; assumption.
Qed.

Lemma url_written_url (w : world R) :
  url_written cfg key w ->
  url_written cfg key (set_url (url_of cfg key) w).
Proof. intros [Hu Hp]. split; [reflexivity | exact Hp]. Qed.

Ltac url_written_steps :=
  repeat first
    [ assumption
    | apply url_written_reject
    | apply url_written_url
    | apply url_written_pending
    | apply url_written_event
    | apply url_written_resolve; [|reflexivity] ];
  try exact I;
  try (split; reflexivity);
  try reflexivity.

Lemma url_written_step (i : nat) (w w' : world R) :
  url_written cfg key w -> deliver throws respond i w = Some w' ->
  url_written cfg key w'.
Proof.
  intros [Hu Hp] D.
  destruct (deliver_inv _ _ _ D) as (c & k & resp & r' & _ & Hin & _ & ->).
  assert (Hk : of_upload cfg key (c, k)).
  { rewrite Forall_forall in Hp. exact (Hp _ Hin). }
  apply (Forall_remove_nth _ i) in Hp.
  set (w0 := mkWorld r' (remove_nth i (pending w)) (trace w) (promise w)
               (descriptor w)).
  assert (H0 : url_written cfg key w0) by (split; assumption).
  clearbody w0. clear Hu Hp Hin D.
  unfold of_upload in Hk. simpl in Hk.
  destruct k as [b loc who|b|cfg' key'| |cfg' key'|]; destruct resp as [d|e];
    try contradiction.
  - subst who.
    assert (Hc : forall w1, url_written cfg key w1 ->
                   forall r,
                     url_written cfg key
                       (checkBucket_settled throws (FromUpload cfg key) r w1)).
    { intros w1 H1 [[]|e]; unfold_turn; repeat split_throws;
        url_written_steps. }
    unfold react.
    destruct (checkBucket_exists_then throws b loc d w0) as [r1 w1] eqn:E.
    apply Hc.
    unfold checkBucket_exists_then, catch, issue, throw, ret in E.
    destruct d; simpl in E; [now injection E as <- <-|].
    match type of E with
    | context [throws ?r ?c] => destruct (throws r c)
    end; injection E as <- <-; url_written_steps.
  - subst who. unfold_turn. url_written_steps.
  - unfold_turn. url_written_steps.
  - unfold_turn. url_written_steps.
  - destruct d; unfold_turn; [|exact H0].
    split_throws; url_written_steps.
  - unfold_turn. url_written_steps.
  - unfold_turn. url_written_steps.
  - unfold_turn. destruct (is_404 e); url_written_steps.
  - destruct Hk as [-> ->]. unfold_turn. url_written_steps.
  - unfold_turn. url_written_steps.
Qed.

End UrlWritten.

(** The promise of [upload] is resolved only by the reaction to a
    successful write, which has written [file.url]. *)
Lemma upload_resolved_url (cfg : config) (f : file) (r : R) schedule :
  let w := run throws respond schedule (upload throws cfg (new_world r f)) in
  promise w = Resolved ->
  url (descriptor w) = JS.Str (url_of cfg (upload_key f)).
Proof.
  intros w.
  assert (H : url_written cfg (upload_key f) w); [|exact (proj1 H)].
  apply run_invariant; [apply url_written_step|].
  unfold upload, checkBucket, issue.
  split_throws; simpl; split; simpl; try discriminate; repeat constructor.
Qed.

End EventLoopFacts.

(** ** The operations on examples *)

Lemma delete_resolves_despite_failure_witness :
  let w0 := delete Failing.throws photo_config (new_world backend_error photo)
  in
  promise w0 = Resolved
  /\ promise (run Failing.throws Failing.respond [0] w0) = Resolved
  /\ pending (run Failing.throws Failing.respond [0] w0) = []
  /\ forall schedule,
       promise (run Failing.throws Failing.respond schedule w0) = Resolved.
Proof.
  apply (delete_resolves_despite_failure Failing.throws Failing.respond
           photo_config photo backend_error backend_error backend_error);
    reflexivity.
Defined.

(** What [delete] leaves behind when the service fails: the one call and
    the line that reports success. *)
Example delete_failure_trace :
  trace (run Failing.throws Failing.respond [0]
           (delete Failing.throws photo_config
              (new_world backend_error photo)))
  = [Issue (FileDelete (JS.Str "my-bucket") "uploads/Photo.JPG.jpg");
     Log Debug "File undefined successfully deleted"].
Proof. reflexivity. Qed.

(** A 404 on [delete] is logged as a warning. *)
Example delete_missing_object :
  let w := run Memory.throws Memory.respond [0]
             (delete Memory.throws photo_config
                (new_world (Memory.mkStore ["my-bucket"] []) photo)) in
  promise w = Resolved
  /\ trace w
     = [Issue (FileDelete (JS.Str "my-bucket") "uploads/Photo.JPG.jpg");
        Log Debug "File undefined successfully deleted";
        Log Warn not_found_warning].
Proof. split; reflexivity. Qed.

Lemma checkBucket_existing_creates_nothing_witness :
  let b := JS.Str "my-bucket" in
  let loc := JS.Str "eu" in
  let first := run Memory.throws Memory.respond [0; 0]
                 (checkBucket Memory.throws b loc Direct
                    (new_world (Memory.mkStore [] []) photo)) in
  calls (trace first) = [BucketExists b; CreateBucket b loc "multi_regional"]
  /\ forall schedule,
       calls (trace (run Memory.throws Memory.respond schedule
                       (checkBucket Memory.throws b loc Direct first)))
       = [BucketExists b; CreateBucket b loc "multi_regional";
          BucketExists b].
Proof.
  intros b loc first. split; [reflexivity|]. intros schedule.
  exact (checkBucket_existing_creates_nothing Memory.throws Memory.respond
           first b loc (Memory.mkStore ["my-bucket"] [])
           eq_refl eq_refl eq_refl schedule).
Defined.

(** A second call made while the creation of the first is in flight finds
    no bucket yet and issues a creation of its own. *)
Example checkBucket_twice_in_a_row :
  let b := JS.Str "my-bucket" in
  let loc := JS.Str "eu" in
  let first := run Memory.throws Memory.respond [0]
                 (checkBucket Memory.throws b loc Direct
                    (new_world (Memory.mkStore [] []) photo)) in
  promise first = Resolved
  /\ calls (trace (run Memory.throws Memory.respond [1]
                     (checkBucket Memory.throws b loc Direct first)))
     = [BucketExists b; CreateBucket b loc "multi_regional";
        BucketExists b; CreateBucket b loc "multi_regional"].
Proof. split; reflexivity. Qed.

Lemma bucket_creation_rejection_not_surfaced_witness :
  let b := JS.Str "my-bucket" in
  let loc := JS.Str "eu" in
  let w0 := checkBucket Denied.throws b loc Direct (new_world tt photo) in
  let w1 := run Denied.throws Denied.respond [0] w0 in
  let w2 := run Denied.throws Denied.respond [0; 0] w0 in
  promise w1 = Resolved
  /\ promise w2 = Resolved
  /\ pending w2 = []
  /\ trace w2 = [Issue (BucketExists b);
                 Issue (CreateBucket b loc "multi_regional");
                 Unhandled Denied.forbidden].
Proof.
  apply (bucket_creation_rejection_not_surfaced Denied.throws Denied.respond
           tt tt tt photo (JS.Str "my-bucket") (JS.Str "eu")
           Denied.forbidden); reflexivity.
Defined.

(** [upload] over an existing object, the answers arriving in the order of
    the calls: the delete is issued after the write, and it is the object
    just written that the service removes. *)
Example upload_over_existing_object :
  let w := run Memory.throws Memory.respond [0; 0; 0; 0]
             (upload Memory.throws photo_config
                (new_world photo_store photo)) in
  map is_delete (calls (trace w)) = [false; false; false; true]
  /\ map is_write (calls (trace w)) = [false; false; true; false]
  /\ promise w = Resolved
  /\ Memory.objects (remote w) = [].
Proof. repeat split. Qed.

(** A 404 on the delete issued by [upload] is logged as a warning and
    touches neither the promise nor the calls in flight. *)
Example upload_predelete_not_found :
  forall (R : Type) (throws : R -> call -> option error) (w : world R),
    react throws AfterPreDelete (Rejected Memory.not_found) w
    = add_event (Log Warn not_found_warning) w.
Proof. reflexivity. Qed.

(** Claim C1, as stated, fails: for the file of the scenario the key keeps
    the case of the name and the extension of the name, and so does the
    url written once the write has succeeded. *)
Lemma upload_photo_keeps_name :
  upload_key photo <> "uploads/photo.jpg"
  /\ let w := run Memory.throws Memory.respond [0; 0; 0]
                (upload Memory.throws photo_config
                   (new_world (Memory.mkStore ["my-bucket"] []) photo)) in
     promise w = Resolved
     /\ url (descriptor w)
        <> JS.Str "https://storage.googleapis.com/my-bucket/uploads/photo.jpg".
Proof.
  split; [|split]; [|reflexivity|]; intros H; vm_compute in H; discriminate H.
Qed.

(** Claim C1, amended. For the file of the scenario [upload] computes the
    key [uploads/Photo.JPG.jpg] and, on every service and schedule, once
    the write has succeeded and the promise is resolved, [file.url] is
    [https://storage.googleapis.com/my-bucket/uploads/Photo.JPG.jpg]. *)
Theorem upload_photo_key_and_url :
  upload_key photo = "uploads/Photo.JPG.jpg"
  /\ forall (R : Type) (throws : R -> call -> option error)
            (respond : R -> call -> response * R) (r : R)
            (schedule : list nat),
       let w := run throws respond schedule
                  (upload throws photo_config (new_world r photo)) in
       promise w = Resolved ->
       url (descriptor w)
       = JS.Str
           "https://storage.googleapis.com/my-bucket/uploads/Photo.JPG.jpg".
Proof.
  split; [reflexivity|].
  intros R throws respond r schedule w H.
  exact (upload_resolved_url throws respond photo_config photo r schedule H).
Qed.

Lemma upload_photo_key_and_url_witness :
  let w := run Memory.throws Memory.respond [0; 0; 0]
             (upload Memory.throws photo_config
                (new_world (Memory.mkStore ["my-bucket"] []) photo)) in
  promise w = Resolved
  /\ url (descriptor w)
     = JS.Str "https://storage.googleapis.com/my-bucket/uploads/Photo.JPG.jpg".
Proof.
  split; [reflexivity|].
  apply (proj2 upload_photo_key_and_url Memory.store Memory.throws
           Memory.respond (Memory.mkStore ["my-bucket"] []) [0; 0; 0]).
  reflexivity.
Defined.

(** * Further properties *)

(** ** The service account check, completed *)

Section ValidationMore.

Variable JSON_parse : string -> result json.

(** What a return of [checkServiceAccount] tells. *)
Lemma checkServiceAccount_return_inv (cfg : config) (sa : json) :
  checkServiceAccount JSON_parse cfg = Return sa ->
  JS.truthy (serviceAccount cfg) = true
  /\ JS.truthy (bucketName cfg) = true
  /\ JSON_parse (JS.to_text (serviceAccount cfg)) = Return sa
  /\ forall fld, truthy_json (read_property sa fld) = true.
Proof.
  intros H.
  destruct (JS.truthy (serviceAccount cfg)) eqn:Hs;
    [|unfold checkServiceAccount in H; rewrite Hs in H; discriminate].
  destruct (JS.truthy (bucketName cfg)) eqn:Hb;
    [|unfold checkServiceAccount in H; rewrite Hs, Hb in H; discriminate].
  destruct (checkServiceAccount_outcomes JSON_parse cfg Hs Hb)
    as [E|(sa' & P & E & T)]; rewrite E in H; [discriminate|].
  injection H as <-. auto.
Qed.

(** Property X1. [checkServiceAccount] returns exactly when both settings are present,
    the service account parses, and the parsed value has the three fields;
    what it returns is the parsed value. *)
Theorem checkServiceAccount_returns_iff (cfg : config) (sa : json) :
  checkServiceAccount JSON_parse cfg = Return sa
  <-> JS.truthy (serviceAccount cfg) = true
      /\ JS.truthy (bucketName cfg) = true
      /\ JSON_parse (JS.to_text (serviceAccount cfg)) = Return sa
      /\ forall fld, truthy_json (read_property sa fld) = true.
Proof.
  split; [apply checkServiceAccount_return_inv|].
  intros (Hs & Hb & P & T).
  destruct (checkServiceAccount_outcomes JSON_parse cfg Hs Hb)
    as [E|(sa' & P' & E & _)].
  - exfalso. revert E. unfold checkServiceAccount.
    rewrite Hs, Hb, P. simpl.
    pose proof (T project_id) as T1. pose proof (T client_email) as T2.
    pose proof (T private_key) as T3. unfold read_property in *.
    destruct (get_property sa project_id) as [p|]; simpl in *;
      [|discriminate].
    rewrite T1. simpl.
    destruct (get_property sa client_email) as [c|]; simpl in *;
      [|discriminate].
    rewrite T2. simpl.
    destruct (get_property sa private_key) as [k|]; simpl in *;
      [|discriminate].
    rewrite T3. simpl. discriminate.
  - rewrite P in P'. injection P' as <-. exact E.
Qed.

(** Property X2. Whatever [checkServiceAccount] throws is an [Error] without code whose
    message is one of three: the two that say which setting is required,
    in the order of the checks, and the one of the [catch] block. *)
Theorem checkServiceAccount_throws_one_of_three (cfg : config) (e : error) :
  checkServiceAccount JSON_parse cfg = Throw e ->
  (JS.truthy (serviceAccount cfg) = false
   /\ e = Error required_serviceAccount)
  \/ (JS.truthy (serviceAccount cfg) = true
      /\ JS.truthy (bucketName cfg) = false
      /\ e = Error required_bucketName)
  \/ (JS.truthy (serviceAccount cfg) = true
      /\ JS.truthy (bucketName cfg) = true
      /\ e = Error parsing_failed).
Proof.
  intros H.
  destruct (JS.truthy (serviceAccount cfg)) eqn:Hs.
  - destruct (JS.truthy (bucketName cfg)) eqn:Hb.
    + right. right.
      destruct (checkServiceAccount_outcomes JSON_parse cfg Hs Hb)
        as [E|(sa' & _ & E & _)]; rewrite E in H; [|discriminate].
      injection H as <-. auto.
    + right. left. unfold checkServiceAccount in H. rewrite Hs, Hb in H.
      injection H as <-. auto.
  - left. unfold checkServiceAccount in H. rewrite Hs in H.
    injection H as <-. auto.
Qed.

(** Property X3. [init] either throws what [checkServiceAccount] throws and does
    nothing, or constructs one storage client, from three present fields of
    the parsed service account, and returns the operations closed over the
    configuration. *)
Theorem init_constructs_client_once (cfg : config) :
  (exists e,
     checkServiceAccount JSON_parse cfg = Throw e
     /\ init JSON_parse cfg = ([], Throw e))
  \/ (exists sa p c k,
        JSON_parse (JS.to_text (serviceAccount cfg)) = Return sa
        /\ read_property sa project_id = Some p
        /\ read_property sa client_email = Some c
        /\ read_property sa private_key = Some k
        /\ init JSON_parse cfg
           = ([NewStorage (Some p) (Some c) (Some k)],
              Return (mkProvider cfg sa))).
Proof.
  unfold init.
  destruct (checkServiceAccount JSON_parse cfg) as [sa|e] eqn:E.
  - right. apply checkServiceAccount_return_inv in E.
    destruct E as (_ & _ & P & T).
    pose proof (T project_id) as T1. pose proof (T client_email) as T2.
    pose proof (T private_key) as T3.
    destruct (read_property sa project_id) as [p|] eqn:E1; [|discriminate].
    destruct (read_property sa client_email) as [c|] eqn:E2; [|discriminate].
    destruct (read_property sa private_key) as [k|] eqn:E3; [|discriminate].
    exists sa, p, c, k. repeat split; auto.
  - left. exists e. auto.
Qed.

End ValidationMore.

Lemma checkServiceAccount_returns_iff_witness :
  let sa := JObject [("project_id", JString "p");
                     ("client_email", JString "e");
                     ("private_key", JString "k")] in
  checkServiceAccount (fun _ => Return sa) photo_config = Return sa.
Proof.
  intros sa.
  apply (proj2 (checkServiceAccount_returns_iff (fun _ => Return sa)
                  photo_config sa)).
  repeat split. intros []; reflexivity.
Defined.

Lemma checkServiceAccount_throws_one_of_three_witness :
  (JS.truthy (serviceAccount account_config) = false
   /\ Error parsing_failed = Error required_serviceAccount)
  \/ (JS.truthy (serviceAccount account_config) = true
      /\ JS.truthy (bucketName account_config) = false
      /\ Error parsing_failed = Error required_bucketName)
  \/ (JS.truthy (serviceAccount account_config) = true
      /\ JS.truthy (bucketName account_config) = true
      /\ Error parsing_failed = Error parsing_failed).
Proof.
  apply (checkServiceAccount_throws_one_of_three parse_sample account_config).
  reflexivity.
Defined.

(** ** Keys of files with missing fields *)

(** Property X5. A file without path and without related reference whose hash is
    missing is filed by [upload] and by [delete] under the folder named
    by the text of the missing value, [undefined] or [null]; and a related
    reference without [refId] gives the folder [<ref>/undefined]. *)
Theorem keys_of_missing_fields (f : file) :
  JS.truthy (path f) = false ->
  (related_reference f = None ->
   (hash f = JS.Undefined ->
    upload_key f = "undefined/" ++ fileName f
    /\ delete_key f = "undefined/" ++ fileName f)
   /\ (hash f = JS.Null ->
       upload_key f = "null/" ++ fileName f
       /\ delete_key f = "null/" ++ fileName f))
  /\ (forall r, related_reference f = Some (r, JS.Undefined) ->
      upload_key f = JS.to_text r ++ "/undefined/" ++ fileName f).
Proof.
  intros Hp.
  unfold upload_key, delete_key, delete_filePath.
  rewrite upload_filePath_spec. unfold spec_folder. rewrite Hp.
  split.
  - intros Hr. rewrite Hr. split; intros ->; split; reflexivity.
  - intros r Hr. rewrite Hr. simpl. now rewrite !append_assoc.
Qed.

Lemma keys_of_missing_fields_witness :
  upload_key bare = "undefined/notes.txt"
  /\ delete_key bare = "undefined/notes.txt".
Proof.
  destruct (keys_of_missing_fields bare eq_refl) as [H _].
  destruct (H eq_refl) as [K _].
  exact (K eq_refl).
Defined.

(** ** Texts *)

Lemma prefix_append (pat rest : string) : prefix pat (pat ++ rest) = true.
Proof.
  induction pat as [|x pat IH]; simpl; [now destruct rest|].
  destruct (ascii_dec x x) as [_|N]; [exact IH | now elim N].
Qed.

Lemma split_first_prefix (pat s : string) :
  prefix pat s = true -> JS.split_first pat s <> None.
Proof.
  intros H. destruct s; cbn [JS.split_first]; rewrite H; discriminate.
Qed.

Lemma includes_append (a pat rest : string) :
  JS.includes pat (a ++ pat ++ rest) = true.
Proof.
  unfold JS.includes.
  assert (H : JS.split_first pat (a ++ pat ++ rest) <> None).
  { induction a as [|x a IH].
    - change (EmptyString ++ pat ++ rest) with (pat ++ rest).
      apply split_first_prefix, prefix_append.
    - cbn [append JS.split_first].
      destruct (prefix pat (String x (a ++ pat ++ rest))); [discriminate|].
      destruct (JS.split_first pat (a ++ pat ++ rest)) as [[b c]|];
        [discriminate | contradiction]. }
  destruct (JS.split_first pat (a ++ pat ++ rest)); [reflexivity|].
  contradiction.
Qed.

(** The message made for a failed creation contains the name of the
    bucket. *)
Lemma creation_failed_names_bucket (b : JS.value) :
  JS.includes (JS.to_text b) (creation_failed b) = true.
Proof.
  change (creation_failed b)
    with (("An error occurs when we try to create the Bucket " ++ dquote)
          ++ JS.to_text b
          ++ (dquote
              ++ ". Please try again on Google Cloud Platform directly.")).
  apply includes_append.
Qed.

Lemma substitution_dollar_free (matched before after repl : string) :
  dollar_free repl = true ->
  JS.substitution matched before after repl = repl.
Proof.
  induction repl as [|c r IH]; simpl; [reflexivity|].
  destruct (c =? "$")%char; simpl; [discriminate|].
  intros H. now rewrite IH.
Qed.

(** Property X4. Each of the three base urls offered to the host ends with the
    placeholder, and for a bucket name without a dollar sign the url
    written by [upload] is the text before the placeholder, the bucket
    name, a slash and the key. *)
Theorem url_of_offered_base (cfg : config) (key : string) :
  In (baseUrl cfg) Auth.baseUrl_values ->
  dollar_free (JS.to_text (bucketName cfg)) = true ->
  exists scheme,
    baseUrl cfg = scheme ++ "{bucket-name}"
    /\ url_of cfg key
       = scheme ++ JS.to_text (bucketName cfg) ++ "/" ++ key.
Proof.
  intros Hin Hd. unfold url_of.
  destruct Hin as [E|[E|[E|[]]]]; rewrite <- E.
  - exists "https://storage.googleapis.com/". split; [reflexivity|].
    unfold JS.replace. simpl.
    now rewrite substitution_dollar_free, append_assoc.
  - exists "https://". split; [reflexivity|].
    unfold JS.replace. simpl.
    now rewrite substitution_dollar_free, append_assoc.
  - exists "http://". split; [reflexivity|].
    unfold JS.replace. simpl.
    now rewrite substitution_dollar_free, append_assoc.
Qed.

Lemma url_of_offered_base_witness :
  exists scheme,
    baseUrl photo_config = scheme ++ "{bucket-name}"
    /\ url_of photo_config "uploads/Photo.JPG.jpg"
       = scheme ++ "my-bucket" ++ "/" ++ "uploads/Photo.JPG.jpg".
Proof.
  apply (url_of_offered_base photo_config "uploads/Photo.JPG.jpg").
  - left. reflexivity.
  - reflexivity.
Defined.

(** ** Counting *)

Section CountingFacts.

Context {R : Type}.

Lemma filter_remove_nth {A} (q : A -> bool) (i : nat) (l : list A) (x : A) :
  nth_error l i = Some x ->
  List.length (filter q l)
  = List.length (filter q (remove_nth i l)) + (if q x then 1 else 0).
Proof.
  revert i. induction l as [|y l IH]; intros [|i] H; simpl in *;
    try discriminate.
  - injection H as ->. destruct (q x); simpl; lia.
  - specialize (IH i H). destruct (q y); simpl; lia.
Qed.

Lemma made_issue (p : call -> bool) (c : call) (w : world R) :
  made p (add_event (Issue c) w) = made p w + (if p c then 1 else 0).
Proof.
  unfold made. simpl. rewrite calls_app, filter_app, length_app. simpl.
  destruct (p c); reflexivity.
Qed.

Lemma made_log (p : call -> bool) l msg (w : world R) :
  made p (add_event (Log l msg) w) = made p w.
Proof.
  unfold made. simpl. rewrite calls_app. simpl. now rewrite app_nil_r.
Qed.

Lemma made_unhandled (p : call -> bool) e (w : world R) :
  made p (add_event (Unhandled e) w) = made p w.
Proof.
  unfold made. simpl. rewrite calls_app. simpl. now rewrite app_nil_r.
Qed.

Lemma made_pending (p : call -> bool) c k (w : world R) :
  made p (add_pending c k w) = made p w.
Proof. reflexivity. Qed.

Lemma made_settle (p : call -> bool) s (w : world R) :
  made p (settle s w) = made p w.
Proof. unfold settle. destruct (promise w); reflexivity. Qed.

Lemma made_url (p : call -> bool) u (w : world R) :
  made p (set_url u w) = made p w.
Proof. reflexivity. Qed.

Lemma waiting_event (q : reaction -> bool) e (w : world R) :
  waiting q (add_event e w) = waiting q w.
Proof. reflexivity. Qed.

Lemma waiting_pending (q : reaction -> bool) c k (w : world R) :
  waiting q (add_pending c k w) = waiting q w + (if q k then 1 else 0).
Proof.
  unfold waiting. simpl. rewrite filter_app, length_app. simpl.
  destruct (q k); reflexivity.
Qed.

Lemma waiting_settle (q : reaction -> bool) s (w : world R) :
  waiting q (settle s w) = waiting q w.
Proof. unfold settle. destruct (promise w); reflexivity. Qed.

Lemma waiting_url (q : reaction -> bool) u (w : world R) :
  waiting q (set_url u w) = waiting q w.
Proof. reflexivity. Qed.

(** What the steps of a turn do to the observations of a world. *)

Lemma calls_issue (c : call) (w : world R) :
  calls (trace (add_event (Issue c) w)) = (calls (trace w) ++ [c])%list.
Proof. simpl. now rewrite calls_app. Qed.

Lemma calls_log l msg (w : world R) :
  calls (trace (add_event (Log l msg) w)) = calls (trace w).
Proof. simpl. rewrite calls_app. simpl. now rewrite app_nil_r. Qed.

Lemma calls_unhandled e (w : world R) :
  calls (trace (add_event (Unhandled e) w)) = calls (trace w).
Proof. simpl. rewrite calls_app. simpl. now rewrite app_nil_r. Qed.

Lemma trace_pending c k (w : world R) :
  trace (add_pending c k w) = trace w.
Proof. reflexivity. Qed.

Lemma trace_settle s (w : world R) : trace (settle s w) = trace w.
Proof. unfold settle. destruct (promise w); reflexivity. Qed.

Lemma trace_url u (w : world R) : trace (set_url u w) = trace w.
Proof. reflexivity. Qed.

Lemma pending_event e (w : world R) : pending (add_event e w) = pending w.
Proof. reflexivity. Qed.

Lemma pending_pending c k (w : world R) :
  pending (add_pending c k w) = (pending w ++ [(c, k)])%list.
Proof. reflexivity. Qed.

Lemma pending_settle s (w : world R) : pending (settle s w) = pending w.
Proof. unfold settle. destruct (promise w); reflexivity. Qed.

Lemma pending_url u (w : world R) : pending (set_url u w) = pending w.
Proof. reflexivity. Qed.

Lemma promise_event e (w : world R) : promise (add_event e w) = promise w.
Proof. reflexivity. Qed.

Lemma promise_pending c k (w : world R) :
  promise (add_pending c k w) = promise w.
Proof. reflexivity. Qed.

Lemma promise_url u (w : world R) : promise (set_url u w) = promise w.
Proof. reflexivity. Qed.

Lemma promise_settle s (w : world R) :
  promise (settle s w)
  = match promise w with Pending => s | settled => settled end.
Proof. unfold settle. destruct (promise w) eqn:E; simpl; auto. Qed.

Lemma descriptor_event e (w : world R) :
  descriptor (add_event e w) = descriptor w.
Proof. reflexivity. Qed.

Lemma descriptor_pending c k (w : world R) :
  descriptor (add_pending c k w) = descriptor w.
Proof. reflexivity. Qed.

Lemma descriptor_settle s (w : world R) :
  descriptor (settle s w) = descriptor w.
Proof. unfold settle. destruct (promise w); reflexivity. Qed.

Lemma descriptor_url u (w : world R) :
  descriptor (set_url u w) = with_url (descriptor w) u.
Proof. reflexivity. Qed.

Lemma remote_event e (w : world R) : remote (add_event e w) = remote w.
Proof. reflexivity. Qed.

Lemma remote_pending c k (w : world R) :
  remote (add_pending c k w) = remote w.
Proof. reflexivity. Qed.

Lemma remote_settle s (w : world R) : remote (settle s w) = remote w.
Proof. unfold settle. destruct (promise w); reflexivity. Qed.

Lemma remote_url u (w : world R) : remote (set_url u w) = remote w.
Proof. reflexivity. Qed.

End CountingFacts.

Create Rewrite HintDb counting.

#[local] Hint Rewrite @calls_issue @calls_log @calls_unhandled @trace_pending
  @trace_settle @trace_url @pending_event @pending_pending @pending_settle
  @pending_url @promise_event @promise_pending @promise_url @promise_settle
  @descriptor_event @descriptor_pending @descriptor_settle @descriptor_url
  @remote_event @remote_pending @remote_settle @remote_url : counting.

#[local] Hint Rewrite @made_issue @made_log @made_unhandled @made_pending
  @made_settle @made_url @waiting_event @waiting_pending @waiting_settle
  @waiting_url : counting.

(** ** The shape of a run of [upload] *)

Section UploadShapeFacts.

Context {R : Type}.
Variable throws : R -> call -> option error.
Variable respond : R -> call -> response * R.
Variables (cfg : config) (f : file).

Ltac unfold_turn :=
  cbv [react job bind catch lift log resolve reject issue ret throw
       read_descriptor checkBucket_exists_then checkBucket_settled
       upload_check_existing upload_save].

Ltac split_throws :=
  match goal with
  | |- context [throws ?r ?c] => destruct (throws r c)
  end.

Ltac shape_counts :=
  cbn [after_bucket_check after_object_check after_write is_bucket_check
       is_creation is_object_check is_write is_delete snd fst] in *.

Ltac shape_finish :=
  unfold upload_shape, upload_outcome;
  autorewrite with counting;
  shape_counts;
  repeat match goal with
    | H : descriptor _ = _ |- _ => rewrite H
    | H : promise _ = _ |- _ => rewrite H
    end;
  repeat rewrite Forall_app;
  repeat split;
  try assumption;
  try lia;
  try (repeat constructor; unfold upload_calls; simpl; tauto);
  try (repeat constructor; unfold upload_pending; simpl; tauto).

Lemma upload_shape_step (i : nat) (w w' : world R) :
  upload_shape cfg f w -> deliver throws respond i w = Some w' ->
  upload_shape cfg f w'.
Proof.
  intros (Hc & Hp & Hb & Hcr & Hoc & Hwr & Hde & Hsa & Hws & Hout) D.
  destruct (deliver_inv _ _ _ _ _ D)
    as (c & k & resp & r' & Hn & Hin & _ & ->).
  assert (Hk : upload_pending cfg f (c, k)).
  { rewrite Forall_forall in Hp. exact (Hp _ Hin). }
  apply (Forall_remove_nth _ i) in Hp.
  pose proof (filter_remove_nth
                (fun ck => after_bucket_check (snd ck)) i _ _ Hn) as N1.
  pose proof (filter_remove_nth
                (fun ck => after_object_check (snd ck)) i _ _ Hn) as N2.
  pose proof (filter_remove_nth
                (fun ck => after_write (snd ck)) i _ _ Hn) as N3.
  set (w0 := mkWorld r' (remove_nth i (pending w)) (trace w) (promise w)
               (descriptor w)) in *.
  change (waiting after_bucket_check w
          = waiting after_bucket_check w0
            + (if after_bucket_check k then 1 else 0)) in N1.
  change (waiting after_object_check w
          = waiting after_object_check w0
            + (if after_object_check k then 1 else 0)) in N2.
  change (waiting after_write w
          = waiting after_write w0 + (if after_write k then 1 else 0)) in N3.
  assert (M : forall p, made p w = made p w0) by reflexivity.
  unfold upload_outcome in Hout.
  rewrite !M in *. rewrite N1, N2, N3 in *. clear M N1 N2 N3.
  change (promise w) with (promise w0) in Hout.
  change (descriptor w) with (descriptor w0) in Hout.
  change (calls (trace w)) with (calls (trace w0)) in Hc.
  change (remove_nth i (pending w)) with (pending w0) in Hp.
  clearbody w0. clear D Hn Hin.
  unfold upload_pending in Hk. cbn [snd fst] in Hk.
  destruct k as [b loc who|b|cfg' key'| |cfg' key'|]; shape_counts.
  - (* the bucket check is answered: nothing else was done yet *)
    destruct Hk as (-> & -> & -> & ->).
    destruct (promise w0) eqn:Pr; [|exfalso; lia|exfalso; lia].
    destruct resp as [[|]|e]; unfold_turn; cbn [negb];
      repeat (split_throws; cbv beta iota); shape_finish.
  - destruct resp; unfold_turn; shape_finish; destruct (promise w0);
      intuition lia.
  - destruct Hk as (-> & -> & ->).
    destruct resp as [[|]|e]; unfold_turn;
      repeat (split_throws; cbv beta iota); shape_finish;
      destruct (promise w0); intuition lia.
  - destruct resp as [d|e]; unfold_turn; try destruct (is_404 e);
      shape_finish; destruct (promise w0); intuition lia.
  - (* the write is answered: the promise is still pending *)
    destruct Hk as (-> & -> & ->).
    destruct (promise w0) eqn:Pr; [|exfalso; lia|exfalso; lia].
    destruct resp as [d|e]; unfold_turn; shape_finish.
  - contradiction.
Qed.

Lemma upload_shape_start (r : R) :
  upload_shape cfg f (upload throws cfg (new_world r f)).
Proof.
  unfold upload, checkBucket, issue. cbn [descriptor new_world].
  split_throws; cbv beta iota; unfold checkBucket_settled; shape_finish;
    reflexivity.
Qed.

Lemma upload_shape_run (r : R) (schedule : list nat) :
  upload_shape cfg f
    (run throws respond schedule (upload throws cfg (new_world r f))).
Proof.
  apply run_invariant; [apply upload_shape_step | apply upload_shape_start].
Qed.

(** Property X6. In every run of [upload], on every service and schedule, the calls
    made are among the five calls of [upload_calls]: they go to the
    configured bucket and to the key of the file, and the write carries
    the content, the mime type, the public flag and the disposition of the
    file. The bucket check is made once and each other call at most
    once. *)
Theorem upload_calls_once (r : R) (schedule : list nat) :
  let w := run throws respond schedule (upload throws cfg (new_world r f)) in
  (forall c, In c (calls (trace w)) -> In c (upload_calls cfg f))
  /\ made is_bucket_check w = 1
  /\ made is_creation w <= 1
  /\ made is_object_check w <= 1
  /\ made is_write w <= 1
  /\ made is_delete w <= 1.
Proof.
  intros w.
  destruct (upload_shape_run r schedule)
    as (Hc & _ & Hb & Hcr & Hoc & Hwr & Hde & _).
  fold w in Hc, Hb, Hcr, Hoc, Hwr, Hde.
  rewrite Forall_forall in Hc.
  repeat split; try assumption; lia.
Qed.

(** Property X7. In every run of [upload] the descriptor is the one handed over, with
    [url] written exactly when the promise is resolved; a promise that is
    pending or rejected leaves the descriptor as it was, and a promise is
    settled only after the write has been issued. *)
Theorem upload_writes_url_only (r : R) (schedule : list nat) :
  let w := run throws respond schedule (upload throws cfg (new_world r f)) in
  match promise w with
  | Pending => descriptor w = f
  | Resolved =>
      descriptor w = with_url f (url_of cfg (upload_key f))
      /\ made is_write w = 1
  | RejectedWith _ => descriptor w = f /\ made is_write w = 1
  end.
Proof.
  intros w.
  destruct (upload_shape_run r schedule) as (_ & _ & _ & _ & _ & _ & _ & _ & _ & H).
  fold w in H. unfold upload_outcome in H.
  destruct (promise w); tauto.
Qed.

End UploadShapeFacts.

(** ** Runs with one call in flight *)

Section SingleCall.

Context {R : Type}.
Variable throws : R -> call -> option error.
Variable respond : R -> call -> response * R.

(** With nothing in flight no turn takes place. *)
Lemma run_quiescent (w : world R) (schedule : list nat) :
  pending w = [] -> run throws respond schedule w = w.
Proof.
  intros H. induction schedule as [|i rest IH]; simpl; [reflexivity|].
  unfold deliver. rewrite H. destruct i; simpl; exact IH.
Qed.

(** With one call in flight whose reaction leaves nothing in flight, a
    schedule either never answers the call or ends in the world after the
    answer. *)
Lemma run_single (w w1 : world R) (ck : call * reaction) :
  pending w = [ck] ->
  deliver throws respond 0 w = Some w1 ->
  pending w1 = [] ->
  forall schedule,
    run throws respond schedule w = w
    \/ run throws respond schedule w = w1.
Proof.
  intros Hp Hd H1 schedule.
  induction schedule as [|i rest IH]; simpl; [now left|].
  destruct i as [|i].
  - rewrite Hd. right. now apply run_quiescent.
  - unfold deliver. rewrite Hp. destruct i; simpl; exact IH.
Qed.

(** *** [delete] *)

(** The world left by [delete] once its call is answered. *)
Lemma delete_answered (cfg : config) (f : file) (r r' : R) (resp : response) :
  throws r (FileDelete (bucketName cfg) (delete_key f)) = None ->
  respond r (FileDelete (bucketName cfg) (delete_key f)) = (resp, r') ->
  deliver throws respond 0 (delete throws cfg (new_world r f))
  = Some
      (mkWorld r' []
         ([Issue (FileDelete (bucketName cfg) (delete_key f));
           Log Debug
             ("File " ++ JS.to_text (url f) ++ " successfully deleted")]
          ++ match resp with
             | Rejected e =>
                 if is_404 e then [Log Warn not_found_warning] else []
             | Fulfilled _ => []
             end)
         Resolved f).
Proof.
  intros Ht Hr.
  unfold delete, bind, issue, deliver. simpl. rewrite Ht. simpl.
  rewrite Hr. destruct resp as [d|e]; simpl; [reflexivity|].
  unfold job, reject, log, lift.
  destruct (is_404 e); reflexivity.
Qed.

(** Property X8. [delete] makes one call, the delete of the object at [delete_key], on
    every schedule; it leaves the descriptor as it was; and once the call
    is answered the log holds the line that reports success, followed by
    the warning exactly when the answer is a rejection of code 404. *)
Theorem delete_one_call
    (cfg : config) (f : file) (r r' : R) (resp : response) :
  throws r (FileDelete (bucketName cfg) (delete_key f)) = None ->
  respond r (FileDelete (bucketName cfg) (delete_key f)) = (resp, r') ->
  (forall schedule,
     let w := run throws respond schedule (delete throws cfg (new_world r f))
     in
     calls (trace w) = [FileDelete (bucketName cfg) (delete_key f)]
     /\ descriptor w = f)
  /\ trace (run throws respond [0] (delete throws cfg (new_world r f)))
     = ([Issue (FileDelete (bucketName cfg) (delete_key f));
         Log Debug ("File " ++ JS.to_text (url f) ++ " successfully deleted")]
        ++ match resp with
           | Rejected e =>
               if is_404 e then [Log Warn not_found_warning] else []
           | Fulfilled _ => []
           end)%list.
Proof.
  intros Ht Hr.
  pose proof (delete_answered cfg f r r' resp Ht Hr) as Hd.
  split.
  - intros schedule w.
    assert (H0 : pending (delete throws cfg (new_world r f))
                 = [(FileDelete (bucketName cfg) (delete_key f), AfterDelete)]).
    { unfold delete, bind, issue. simpl. rewrite Ht. reflexivity. }
    destruct (run_single _ _ _ H0 Hd eq_refl schedule) as [E|E];
      unfold w; rewrite E.
    + unfold delete, bind, issue. simpl. rewrite Ht. split; reflexivity.
    + split; [|reflexivity]. simpl.
      destruct resp as [d|e]; [reflexivity|].
      destruct (is_404 e); reflexivity.
  - simpl. now rewrite Hd.
Qed.

(** Property X9. The storage client throws at the call site of [delete]: the promise is
    rejected with what was thrown, the line that reports success is not
    logged, and nothing is in flight. *)
Theorem delete_throw_rejects
    (cfg : config) (f : file) (r : R) (e : error) (schedule : list nat) :
  throws r (FileDelete (bucketName cfg) (delete_key f)) = Some e ->
  run throws respond schedule (delete throws cfg (new_world r f))
  = mkWorld r [] [Issue (FileDelete (bucketName cfg) (delete_key f))]
      (RejectedWith e) f.
Proof.
  intros Ht. rewrite run_quiescent.
  - unfold delete, bind, issue. simpl. rewrite Ht. reflexivity.
  - unfold delete, bind, issue. simpl. rewrite Ht. reflexivity.
Qed.

(** *** [checkBucket] *)

(** Property X10. The existence check of the bucket is rejected: the promise of
    [checkBucket] is rejected with the same error, and the existence check
    is the only call made, on every schedule. *)
Theorem checkBucket_check_rejected
    (r r' : R) (f : file) (b loc : JS.value) (e : error) :
  throws r (BucketExists b) = None ->
  respond r (BucketExists b) = (Rejected e, r') ->
  let w0 := checkBucket throws b loc Direct (new_world r f) in
  promise (run throws respond [0] w0) = RejectedWith e
  /\ forall schedule,
       calls (trace (run throws respond schedule w0)) = [BucketExists b].
Proof.
  intros Ht Hr w0.
  assert (H0 : pending w0 = [(BucketExists b, AfterBucketExists b loc Direct)]).
  { unfold w0, checkBucket, issue. simpl. rewrite Ht. reflexivity. }
  assert (Hd : deliver throws respond 0 w0
               = Some (mkWorld r' [] [Issue (BucketExists b)]
                         (RejectedWith e) f)).
  { unfold w0, checkBucket, issue, deliver. simpl. rewrite Ht. simpl.
    now rewrite Hr. }
  split.
  - simpl. now rewrite Hd.
  - intros schedule.
    destruct (run_single _ _ _ H0 Hd eq_refl schedule) as [E|E]; rewrite E.
    + unfold w0, checkBucket, issue. simpl. now rewrite Ht.
    + reflexivity.
Qed.

(** Property X11. The bucket does not exist: one creation is issued, of a
    [multi_regional] bucket at the given location, and the promise of
    [checkBucket] is resolved while the creation is still in flight; the
    answer to the creation, when it is a success, is only logged. *)
Theorem checkBucket_creates_in_background
    (r r1 r2 : R) (f : file) (b loc : JS.value) (d : bool) :
  throws r (BucketExists b) = None ->
  respond r (BucketExists b) = (Fulfilled false, r1) ->
  throws r1 (CreateBucket b loc "multi_regional") = None ->
  respond r1 (CreateBucket b loc "multi_regional") = (Fulfilled d, r2) ->
  let w0 := checkBucket throws b loc Direct (new_world r f) in
  let w1 := run throws respond [0] w0 in
  let w2 := run throws respond [0; 0] w0 in
  promise w1 = Resolved
  /\ pending w1
     = [(CreateBucket b loc "multi_regional", AfterCreateBucket b)]
  /\ pending w2 = []
  /\ trace w2
     = [Issue (BucketExists b);
        Issue (CreateBucket b loc "multi_regional");
        Log Debug ("Bucket " ++ JS.to_text b ++ " successfully created.")].
Proof.
  intros T0 R0 T1 R1.
  unfold checkBucket, issue, run, deliver. simpl.
  rewrite T0. simpl. rewrite R0. simpl.
  unfold checkBucket_exists_then, catch, issue. simpl.
  rewrite T1. simpl. rewrite R1. simpl.
  repeat split.
Qed.

End SingleCall.

(** ** Paths of [upload] and [checkBucket] *)

Section UploadPaths.

Context {R : Type}.
Variable throws : R -> call -> option error.
Variable respond : R -> call -> response * R.

Ltac unfold_turn :=
  cbv [react job bind catch lift log resolve reject issue ret throw
       read_descriptor checkBucket_exists_then checkBucket_settled
       upload_check_existing upload_save].

Ltac split_throws :=
  match goal with
  | |- context [throws ?r ?c] => destruct (throws r c)
  end.

(** Property X12. The creation call throws at the call site: [checkBucket] is rejected
    with an error made by the [catch] block, whose message contains the
    name of the bucket; what was thrown is not passed on. *)
Theorem creation_throw_names_bucket
    (r r1 : R) (f : file) (b loc : JS.value) (e : error) :
  throws r (BucketExists b) = None ->
  respond r (BucketExists b) = (Fulfilled false, r1) ->
  throws r1 (CreateBucket b loc "multi_regional") = Some e ->
  promise (run throws respond [0]
             (checkBucket throws b loc Direct (new_world r f)))
  = RejectedWith (Error (creation_failed b))
  /\ JS.includes (JS.to_text b) (creation_failed b) = true.
Proof.
  intros T0 R0 T1. split.
  - exact (checkBucket_creation_throws throws respond r r1 f b loc e T0 R0 T1).
  - apply creation_failed_names_bucket.
Qed.

(** Only the reaction to an existence check that answers [true] issues a
    delete. *)
Lemma react_delete_only (k : reaction) (resp : response) (w0 : world R) :
  (forall cfg' key', k = AfterFileExists cfg' key' ->
                     resp <> Fulfilled true) ->
  made is_delete (react throws k resp w0) = made is_delete w0.
Proof.
  intros H.
  destruct k as [b loc [|cfg key]|b|cfg key| |cfg key|];
    destruct resp as [[|]|e]; unfold_turn; cbn [negb];
    try destruct (is_404 e);
    repeat (split_throws; cbv beta iota);
    autorewrite with counting; simpl; try lia.
  all: exfalso; exact (H _ _ eq_refl eq_refl).
Qed.

(** Property X13. When the existence check of the object never answers [true], no run
    of [upload] issues a delete. *)
Theorem upload_no_delete_of_absent_object
    (cfg : config) (f : file) (r : R) (schedule : list nat) :
  (forall r0,
     fst (respond r0 (FileExists (bucketName cfg) (upload_key f)))
     <> Fulfilled true) ->
  made is_delete
    (run throws respond schedule (upload throws cfg (new_world r f))) = 0.
Proof.
  intros Habs.
  assert (H : upload_shape cfg f
                (run throws respond schedule
                   (upload throws cfg (new_world r f)))
              /\ made is_delete
                   (run throws respond schedule
                      (upload throws cfg (new_world r f))) = 0);
    [|exact (proj2 H)].
  apply (run_invariant throws respond
           (fun w => upload_shape cfg f w /\ made is_delete w = 0)).
  - intros i w w' [Hs Hd] D. split.
    + exact (upload_shape_step throws respond cfg f i w w' Hs D).
    + destruct (deliver_inv _ _ _ _ _ D)
        as (c & k & resp & r' & _ & Hin & Hr & ->).
      rewrite react_delete_only; [exact Hd|].
      intros cfg' key' -> ->.
      destruct Hs as (_ & Hp & _). rewrite Forall_forall in Hp.
      destruct (Hp _ Hin) as (Hc & _). simpl in Hc. subst c.
      apply (Habs (remote w)). now rewrite Hr.
  - split; [apply upload_shape_start|].
    unfold upload, checkBucket, issue.
    split_throws; cbv beta iota; unfold checkBucket_settled;
      autorewrite with counting; reflexivity.
Qed.

(** Property X14. The existence check of the bucket is rejected: the error is an
    unhandled rejection, no other call is made, and the promise of
    [upload] stays pending on every schedule. *)
Theorem upload_hangs_when_bucket_check_fails
    (cfg : config) (f : file) (r r' : R) (e : error) :
  throws r (BucketExists (bucketName cfg)) = None ->
  respond r (BucketExists (bucketName cfg)) = (Rejected e, r') ->
  let w0 := upload throws cfg (new_world r f) in
  run throws respond [0] w0
  = mkWorld r' [] [Issue (BucketExists (bucketName cfg)); Unhandled e]
      Pending f
  /\ forall schedule,
       promise (run throws respond schedule w0) = Pending
       /\ calls (trace (run throws respond schedule w0))
          = [BucketExists (bucketName cfg)].
Proof.
  intros Ht Hr w0.
  assert (H0 : w0 = mkWorld r
                      [(BucketExists (bucketName cfg),
                        AfterBucketExists (bucketName cfg)
                          (bucketLocation cfg)
                          (FromUpload cfg (upload_key f)))]
                      [Issue (BucketExists (bucketName cfg))] Pending f).
  { unfold w0, upload, checkBucket, issue. simpl. now rewrite Ht. }
  assert (Hd : deliver throws respond 0 w0
               = Some (mkWorld r' []
                         [Issue (BucketExists (bucketName cfg)); Unhandled e]
                         Pending f)).
  { rewrite H0. unfold deliver. simpl. now rewrite Hr. }
  split.
  - simpl. now rewrite Hd.
  - intros schedule.
    destruct (run_single throws respond w0 _ _
                ltac:(rewrite H0; reflexivity) Hd eq_refl schedule)
      as [E|E]; rewrite E; [rewrite H0|]; split; reflexivity.
Qed.

(** Property X15. The bucket exists, the object does not, and the answers arrive in the
    order of the calls: [upload] makes three calls and settles with the
    answer to the write, resolved with [url] written and the success
    logged, or rejected with the error of the write and the descriptor as
    it was. *)
Theorem upload_settles_with_write
    (cfg : config) (f : file) (r r1 r2 r3 : R) (resp : response) :
  (forall r0 c, throws r0 c = None) ->
  respond r (BucketExists (bucketName cfg)) = (Fulfilled true, r1) ->
  respond r1 (FileExists (bucketName cfg) (upload_key f))
  = (Fulfilled false, r2) ->
  respond r2
    (FileSave (bucketName cfg) (upload_key f) (buffer f) (mime f) true
       ("inline; filename=" ++ quoted (name f)))
  = (resp, r3) ->
  run throws respond [0; 0; 0] (upload throws cfg (new_world r f))
  = mkWorld r3 []
      ([Issue (BucketExists (bucketName cfg));
        Issue (FileExists (bucketName cfg) (upload_key f));
        Issue (FileSave (bucketName cfg) (upload_key f) (buffer f) (mime f)
                 true ("inline; filename=" ++ quoted (name f)))]
       ++ match resp with
          | Fulfilled _ =>
              [Log Debug ("File successfully uploaded to "
                          ++ url_of cfg (upload_key f))]
          | Rejected _ => []
          end)
      match resp with
      | Fulfilled _ => Resolved
      | Rejected e => RejectedWith e
      end
      match resp with
      | Fulfilled _ => with_url f (url_of cfg (upload_key f))
      | Rejected _ => f
      end.
Proof.
  intros Ht R0 R1 R2.
  set (BE := BucketExists (bucketName cfg)) in *.
  set (FE := FileExists (bucketName cfg) (upload_key f)) in *.
  set (FS := FileSave (bucketName cfg) (upload_key f) (buffer f) (mime f)
               true ("inline; filename=" ++ quoted (name f))) in *.
  assert (E0 : upload throws cfg (new_world r f)
               = mkWorld r
                   [(BE, AfterBucketExists (bucketName cfg)
                           (bucketLocation cfg)
                           (FromUpload cfg (upload_key f)))]
                   [Issue BE] Pending f).
  { unfold upload, checkBucket, issue. simpl. now rewrite Ht. }
  assert (E1 : deliver throws respond 0 (upload throws cfg (new_world r f))
               = Some (mkWorld r1
                         [(FE, AfterFileExists cfg (upload_key f));
                          (FS, AfterSave cfg (upload_key f))]
                         [Issue BE; Issue FE; Issue FS] Pending f)).
  { rewrite E0. unfold deliver. simpl. fold BE. rewrite R0.
    unfold_turn. cbn [negb]. rewrite !Ht. reflexivity. }
  assert (E2 : deliver throws respond 0
                 (mkWorld r1
                    [(FE, AfterFileExists cfg (upload_key f));
                     (FS, AfterSave cfg (upload_key f))]
                    [Issue BE; Issue FE; Issue FS] Pending f)
               = Some (mkWorld r2 [(FS, AfterSave cfg (upload_key f))]
                         [Issue BE; Issue FE; Issue FS] Pending f)).
  { unfold deliver. simpl. now rewrite R1. }
  simpl. rewrite E1, E2. unfold deliver. simpl. rewrite R2.
  destruct resp as [d|e]; reflexivity.
Qed.

(** Property X16. The bucket does not exist: in the turn that learns it, [upload]
    issues the creation, the existence check of the object and the write,
    in this order, without waiting for the creation to be answered. *)
Theorem upload_does_not_wait_for_creation
    (cfg : config) (f : file) (r r1 : R) :
  (forall r0 c, throws r0 c = None) ->
  respond r (BucketExists (bucketName cfg)) = (Fulfilled false, r1) ->
  let w := run throws respond [0] (upload throws cfg (new_world r f)) in
  calls (trace w)
  = [BucketExists (bucketName cfg);
     CreateBucket (bucketName cfg) (bucketLocation cfg) "multi_regional";
     FileExists (bucketName cfg) (upload_key f);
     FileSave (bucketName cfg) (upload_key f) (buffer f) (mime f) true
       ("inline; filename=" ++ quoted (name f))]
  /\ map snd (pending w)
     = [AfterCreateBucket (bucketName cfg);
        AfterFileExists cfg (upload_key f);
        AfterSave cfg (upload_key f)]
  /\ promise w = Pending.
Proof.
  intros Ht R0.
  assert (E0 : upload throws cfg (new_world r f)
               = mkWorld r
                   [(BucketExists (bucketName cfg),
                     AfterBucketExists (bucketName cfg) (bucketLocation cfg)
                       (FromUpload cfg (upload_key f)))]
                   [Issue (BucketExists (bucketName cfg))] Pending f).
  { unfold upload, checkBucket, issue. simpl. now rewrite Ht. }
  rewrite E0. unfold run, deliver. simpl. rewrite R0.
  unfold_turn. cbn [negb]. rewrite !Ht. repeat split.
Qed.

End UploadPaths.

(** ** The further properties on examples *)

Lemma upload_calls_once_witness :
  let w := run Memory.throws Memory.respond [0; 0; 0; 0]
             (upload Memory.throws photo_config
                (new_world photo_store photo)) in
  In (FileDelete (JS.Str "my-bucket") "uploads/Photo.JPG.jpg")
    (upload_calls photo_config photo)
  /\ made is_delete w <= 1.
Proof.
  intros w.
  destruct (upload_calls_once Memory.throws Memory.respond photo_config
              photo photo_store [0; 0; 0; 0]) as (H & _ & _ & _ & _ & D).
  split; [|exact D].
  apply H. vm_compute. tauto.
Defined.

Lemma delete_one_call_witness :
  (forall schedule,
     let w := run Memory.throws Memory.respond schedule
                (delete Memory.throws photo_config
                   (new_world photo_store photo)) in
     calls (trace w)
     = [FileDelete (JS.Str "my-bucket") "uploads/Photo.JPG.jpg"]
     /\ descriptor w = photo)
  /\ trace (run Memory.throws Memory.respond [0]
              (delete Memory.throws photo_config
                 (new_world photo_store photo)))
     = [Issue (FileDelete (JS.Str "my-bucket") "uploads/Photo.JPG.jpg");
        Log Debug "File undefined successfully deleted"].
Proof.
  exact (delete_one_call Memory.throws Memory.respond photo_config photo
           photo_store (Memory.mkStore ["my-bucket"] []) (Fulfilled true)
           eq_refl eq_refl).
Defined.

Lemma delete_throw_rejects_witness :
  run Offline.throws Offline.respond [0]
    (delete Offline.throws photo_config (new_world backend_error photo))
  = mkWorld backend_error []
      [Issue (FileDelete (JS.Str "my-bucket") "uploads/Photo.JPG.jpg")]
      (RejectedWith backend_error) photo.
Proof.
  exact (delete_throw_rejects Offline.throws Offline.respond photo_config
           photo backend_error backend_error [0] eq_refl).
Defined.

Lemma checkBucket_check_rejected_witness :
  let w0 := checkBucket Failing.throws (JS.Str "my-bucket") (JS.Str "eu")
              Direct (new_world backend_error photo) in
  promise (run Failing.throws Failing.respond [0] w0)
  = RejectedWith backend_error
  /\ forall schedule,
       calls (trace (run Failing.throws Failing.respond schedule w0))
       = [BucketExists (JS.Str "my-bucket")].
Proof.
  exact (checkBucket_check_rejected Failing.throws Failing.respond
           backend_error backend_error photo (JS.Str "my-bucket")
           (JS.Str "eu") backend_error eq_refl eq_refl).
Defined.

Lemma checkBucket_creates_in_background_witness :
  let b := JS.Str "my-bucket" in
  let loc := JS.Str "eu" in
  let w0 := checkBucket Memory.throws b loc Direct
              (new_world (Memory.mkStore [] []) photo) in
  let w1 := run Memory.throws Memory.respond [0] w0 in
  let w2 := run Memory.throws Memory.respond [0; 0] w0 in
  promise w1 = Resolved
  /\ pending w1
     = [(CreateBucket b loc "multi_regional", AfterCreateBucket b)]
  /\ pending w2 = []
  /\ trace w2
     = [Issue (BucketExists b);
        Issue (CreateBucket b loc "multi_regional");
        Log Debug "Bucket my-bucket successfully created."].
Proof.
  exact (checkBucket_creates_in_background Memory.throws Memory.respond
           (Memory.mkStore [] []) (Memory.mkStore [] [])
           (Memory.mkStore ["my-bucket"] []) photo (JS.Str "my-bucket")
           (JS.Str "eu") true eq_refl eq_refl eq_refl eq_refl).
Defined.

Lemma creation_throw_names_bucket_witness :
  promise (run Refusing.throws Refusing.respond [0]
             (checkBucket Refusing.throws (JS.Str "my-bucket") (JS.Str "eu")
                Direct (new_world tt photo)))
  = RejectedWith (Error (creation_failed (JS.Str "my-bucket")))
  /\ JS.includes "my-bucket" (creation_failed (JS.Str "my-bucket")) = true.
Proof.
  exact (creation_throw_names_bucket Refusing.throws Refusing.respond tt tt
           photo (JS.Str "my-bucket") (JS.Str "eu") Refusing.invalid
           eq_refl eq_refl eq_refl).
Defined.

Lemma upload_no_delete_of_absent_object_witness :
  let w := run Vacant.throws Vacant.respond [0; 0; 0]
             (upload Vacant.throws photo_config (new_world tt photo)) in
  map is_object_check (calls (trace w)) = [false; true; false]
  /\ map is_write (calls (trace w)) = [false; false; true]
  /\ promise w = Resolved
  /\ made is_delete w = 0.
Proof.
  intros w. split; [reflexivity|]. split; [reflexivity|].
  split; [reflexivity|].
  apply (upload_no_delete_of_absent_object Vacant.throws Vacant.respond
           photo_config photo tt [0; 0; 0]).
  intros r0. simpl. discriminate.
Defined.

Lemma upload_hangs_when_bucket_check_fails_witness :
  let w0 := upload Failing.throws photo_config
              (new_world backend_error photo) in
  run Failing.throws Failing.respond [0] w0
  = mkWorld backend_error []
      [Issue (BucketExists (JS.Str "my-bucket")); Unhandled backend_error]
      Pending photo
  /\ forall schedule,
       promise (run Failing.throws Failing.respond schedule w0) = Pending
       /\ calls (trace (run Failing.throws Failing.respond schedule w0))
          = [BucketExists (JS.Str "my-bucket")].
Proof.
  exact (upload_hangs_when_bucket_check_fails Failing.throws Failing.respond
           photo_config photo backend_error backend_error backend_error
           eq_refl eq_refl).
Defined.

Lemma upload_settles_with_write_witness :
  promise (run Memory.throws Memory.respond [0; 0; 0]
             (upload Memory.throws photo_config
                (new_world (Memory.mkStore ["my-bucket"] []) photo)))
  = Resolved.
Proof.
  rewrite (upload_settles_with_write Memory.throws Memory.respond
             photo_config photo (Memory.mkStore ["my-bucket"] [])
             (Memory.mkStore ["my-bucket"] [])
             (Memory.mkStore ["my-bucket"] [])
             (Memory.mkStore ["my-bucket"]
                [("my-bucket", "uploads/Photo.JPG.jpg", "bytes")])
             (Fulfilled true));
    reflexivity.
Defined.

Lemma upload_does_not_wait_for_creation_witness :
  let w := run Memory.throws Memory.respond [0]
             (upload Memory.throws photo_config
                (new_world (Memory.mkStore [] []) photo)) in
  map is_creation (calls (trace w)) = [false; true; false; false]
  /\ map is_write (calls (trace w)) = [false; false; false; true]
  /\ promise w = Pending.
Proof.
  intros w.
  destruct (upload_does_not_wait_for_creation Memory.throws Memory.respond
              photo_config photo (Memory.mkStore [] []) (Memory.mkStore [] [])
              (fun _ _ => eq_refl) eq_refl) as (C & _ & P).
  fold w in C. rewrite C. repeat split.
Defined.
